(** * GrovePiPico: the command server of [src/server/main.py]

    A shallow embedding of the protocol interpreter and of the device
    adapters of the firmware, and the properties of its specification.

    Conventions of the embedding.
    - A Python [str] is a [list ascii], one element per character (the
      protocol is ASCII text); literals are written [lit "..."].
    - A Python [int] is a [Z].
    - A Python [float] is the rational number it denotes ([Q]); the
      arithmetic on floats rounds to the precision of the runtime.
    - A Python [dict] is a [gmap].
    - Module-level mutable state is the record [World]; what the drivers
      and the runtime answer during one command is the record [Env].
    - A function that may raise returns a [res]; state changes made before
      the exception are kept, as in Python. *)

From Stdlib Require Import ZArith QArith Qround Qpower Qfield Lqa Ascii String
  List Lia.
From stdpp Require Import base tactics option list gmap strings pretty.

Local Open Scope Z_scope.

(** ** Python strings *)

Abbreviation str := (list ascii).

Definition lit (s : string) : str := list_ascii_of_string s.

Definition LF : ascii := "010"%char.
Definition CR : ascii := "013"%char.
Definition SP : ascii := " "%char.

Module Py.

(** [len(s)]. *)
Definition len (s : str) : Z := Z.of_nat (length s).

(** The characters [str.strip()] removes in MicroPython: tab, line feed,
    vertical tab, form feed, carriage return and space. *)
Definition isspace (c : ascii) : bool := Ascii.is_space c.

Fixpoint lstrip (s : str) : str :=
  match s with
  | [] => []
  | c :: s' => if isspace c then lstrip s' else s
  end.

Definition rstrip (s : str) : str := rev (lstrip (rev s)).

(** [s.strip()]. *)
Definition strip (s : str) : str := rstrip (lstrip s).

Definition lower_char (c : ascii) : ascii :=
  let n := N_of_ascii c in
  if ((65 <=? n) && (n <=? 90))%N then ascii_of_N (n + 32) else c.

(** [s.lower()]. *)
Definition lower (s : str) : str := map lower_char s.

(** [s.replace(a, b)] for one-character [a] and [b]. *)
Definition replace (a b : ascii) (s : str) : str :=
  map (fun c => if Ascii.eqb c a then b else c) s.

Fixpoint find_from (c : ascii) (s : str) (i : Z) : Z :=
  match s with
  | [] => -1
  | x :: s' => if Ascii.eqb x c then i else find_from c s' (i + 1)
  end.

(** [s.find(c)]: the index of the first [c], or [-1]. *)
Definition find (c : ascii) (s : str) : Z := find_from c s 0.

Fixpoint rfind_from (c : ascii) (s : str) (i last : Z) : Z :=
  match s with
  | [] => last
  | x :: s' => rfind_from c s' (i + 1) (if Ascii.eqb x c then i else last)
  end.

(** [s.rfind(c)]: the index of the last [c], or [-1]. *)
Definition rfind (c : ascii) (s : str) : Z := rfind_from c s 0 (-1).

(** A slice bound brought into [0 .. len]: negative bounds count from the
    end. *)
Definition bound (n i : Z) : Z :=
  if i <? 0 then Z.max 0 (i + n) else Z.min i n.

(** [s[lo:hi]]. *)
Definition slice (s : str) (lo hi : Z) : str :=
  let a := bound (len s) lo in
  let b := bound (len s) hi in
  take (Z.to_nat (b - a)) (drop (Z.to_nat a) s).

(** [s[:hi]] and [s[lo:]]. *)
Definition slice_to (s : str) (hi : Z) : str := slice s 0 hi.
Definition slice_from (s : str) (lo : Z) : str := slice s lo (len s).

(** [s.split(c)] ([maxsplit = None]) and [s.split(c, n)]
    ([maxsplit = Some n]) for a one-character separator. *)
Fixpoint split (c : ascii) (maxsplit : option nat) (s : str) : list str :=
  match maxsplit, s with
  | Some O, _ => [s]
  | _, [] => [[]]
  | _, x :: s' =>
      if Ascii.eqb x c then [] :: split c (Nat.pred <$> maxsplit) s'
      else match split c maxsplit s' with
           | p :: ps => (x :: p) :: ps
           | [] => [[x]]
           end
  end.

Definition digit (c : ascii) : option Z :=
  let n := N_of_ascii c in
  if ((48 <=? n) && (n <=? 57))%N then Some (Z.of_N n - 48) else None.

Fixpoint digits (acc : Z) (s : str) : option Z :=
  match s with
  | [] => Some acc
  | c :: s' => match digit c with
               | Some d => digits (10 * acc + d) s'
               | None => None
               end
  end.

(** [int(s)] on a string: surrounding whitespace is ignored, then an
    optional sign and at least one decimal digit; [None] stands for
    [ValueError]. *)
Definition int (s : str) : option Z :=
  match strip s with
  | [] => None
  | c :: t =>
      if Ascii.eqb c "-" then
        match t with [] => None | _ => Z.opp <$> digits 0 t end
      else if Ascii.eqb c "+" then
        match t with [] => None | _ => digits 0 t end
      else digits 0 (c :: t)
  end.

(** [str(n)] for an [int]. *)
Definition str_of_int (n : Z) : str := list_ascii_of_string (pretty n).

End Py.

(** ** The command parser *)

(** [_parse_call(line)]: [Some (name, args_str)], or [None] for the pair
    [(None, None)] the source returns when the line is not a call. *)
Definition _parse_call (line : str) : option (str * str) :=
  match line with
  | [] => None
  | _ =>
      let s := Py.strip line in
      match s with
      | [] => None
      | _ =>
          let l := Py.find "(" s in
          let r := Py.rfind ")" s in
          if (l <=? 0) || (r <=? l) then None
          else Some (Py.strip (Py.slice_to s l),
                     Py.strip (Py.slice s (l + 1) r))
      end
  end.

(** [_split_args(args_str, maxsplit)]; the default [maxsplit] is [-1]. *)
Definition _split_args (args_str : str) (maxsplit : Z) : list str :=
  match args_str with
  | [] => []
  | _ =>
      let parts :=
        if maxsplit =? 1 then Py.split "," (Some 1%nat) args_str
        else Py.split "," None args_str in
      map Py.strip (filter (fun p => Py.strip p <> []) parts)
  end.

(** [_parse_int(token)]. *)
Definition _parse_int (token : str) : option Z := Py.int token.

(** ** Floating point

    A float is represented by the rational it denotes.  [round p x] is the
    float with [p] significant bits nearest to [x], ties going to the even
    significand, with no bound on the exponent: the values the firmware
    computes are far from overflow and underflow.  [p = 24] is the single
    precision of MicroPython on the Pico, [p = 53] is double precision. *)

Module Float.

(** The integer nearest to [u / v] for [0 < v], ties to even. *)
Definition rne (u v : Z) : Z :=
  let q := u / v in
  let r := u mod v in
  if 2 * r <? v then q
  else if v <? 2 * r then q + 1
  else if Z.even q then q else q + 1.

(** The fraction [(a / b) * 2 ^ (- k)] as a pair numerator, denominator. *)
Definition scale (a b k : Z) : Z * Z :=
  if 0 <=? k then (a, b * 2 ^ k) else (a * 2 ^ (- k), b).

(** [floor (log2 (a / b))] for [0 < a] and [0 < b]. *)
Definition ilog2 (a b : Z) : Z :=
  let k := Z.log2 a - Z.log2 b in
  let '(u, v) := scale a b k in
  if v <=? u then k else k - 1.

(** [m * 2 ^ e] as a rational. *)
Definition ldexp (m e : Z) : Q :=
  if 0 <=? e then inject_Z (m * 2 ^ e) else Qmake m (Z.to_pos (2 ^ (- e))).

Definition round_pos (p a b : Z) : Q :=
  let e := ilog2 a b - (p - 1) in
  let '(u, v) := scale a b e in
  ldexp (rne u v) e.

Definition round (p : Z) (x : Q) : Q :=
  match Qnum x with
  | 0 => 0%Q
  | Zpos a => round_pos p (Zpos a) (Zpos (Qden x))
  | Zneg a => Qopp (round_pos p (Zpos a) (Zpos (Qden x)))
  end.

(** [float(n)], [x / y], [x + y] and [int(x)]. *)
Definition of_int (p : Z) (n : Z) : Q := round p (inject_Z n).
Definition div (p : Z) (x y : Q) : Q := round p (x / y).
Definition add (p : Z) (x y : Q) : Q := round p (x + y).
Definition to_int (x : Q) : Z := Z.quot (Qnum x) (Zpos (Qden x)).

End Float.

(** ** Exceptions and results *)

Inductive exn : Type :=
| KeyError (msg : string)
| ValueError (msg : string)
| RuntimeError (msg : string)
| OSError (msg : string).

Inductive res (A : Type) : Type :=
| Ret (a : A)
| Raise (e : exn).
Arguments Ret {A} a.
Arguments Raise {A} e.

(** ** Device objects *)

Inductive PinMode : Type := Pin_IN | Pin_OUT.

(** A [machine.Pin]: its direction and the level of its output latch. *)
Record Pin : Type := mkPin { pin_mode : PinMode; pin_out : Z }.

(** A [machine.PWM] channel. *)
Record PWM : Type := mkPWM { pwm_freq : Z; pwm_duty : Z }.

(** The calls made on a display driver object, at its interface. *)
Inductive LcdOp : Type :=
| lcd_clear
| lcd_home
| lcd_print (s : str)
| lcd_setCursor (col row : Z)
| lcd_set_rgb (r g b : Z).

(** An [LCD1602] object: the calls it has received, oldest first. *)
Abbreviation LCD := (list LcdOp).

(** The display driver class, when [lcd1602] could be imported. *)
Record LcdClass : Type := mkLcdClass { has_set_rgb : bool }.

(** ** Module state *)

Record World : Type := mkWorld {
  DIGITAL_PINS : gmap Z Pin;
  _PWM_CACHE : gmap Z PWM;
  _LCD_CACHE : gmap str LCD;
  _DHT_CACHE : gmap (Z * Z) (Q * Q);
  LCD1602 : option LcdClass;
  stdout : str
}.

Definition ANALOG_PINS : list Z := [0; 1; 2].
Definition I2C_BUSES : list str := [lit "i2c0"; lit "i2c1"].

(** The module state after import: three output pins driven low, empty
    caches, nothing written. *)
Definition boot (driver : option LcdClass) : World :=
  {| DIGITAL_PINS := <[16 := mkPin Pin_OUT 0]> (<[18 := mkPin Pin_OUT 0]>
                       (<[20 := mkPin Pin_OUT 0]> ∅));
     _PWM_CACHE := ∅;
     _LCD_CACHE := ∅;
     _DHT_CACHE := ∅;
     LCD1602 := driver;
     stdout := [] |}.

Definition with_pins (f : gmap Z Pin -> gmap Z Pin) (w : World) : World :=
  mkWorld (f (DIGITAL_PINS w)) (_PWM_CACHE w) (_LCD_CACHE w) (_DHT_CACHE w)
          (LCD1602 w) (stdout w).
Definition with_pwm (f : gmap Z PWM -> gmap Z PWM) (w : World) : World :=
  mkWorld (DIGITAL_PINS w) (f (_PWM_CACHE w)) (_LCD_CACHE w) (_DHT_CACHE w)
          (LCD1602 w) (stdout w).
Definition with_lcd (f : gmap str LCD -> gmap str LCD) (w : World) : World :=
  mkWorld (DIGITAL_PINS w) (_PWM_CACHE w) (f (_LCD_CACHE w)) (_DHT_CACHE w)
          (LCD1602 w) (stdout w).
Definition with_dht (f : gmap (Z * Z) (Q * Q) -> gmap (Z * Z) (Q * Q))
    (w : World) : World :=
  mkWorld (DIGITAL_PINS w) (_PWM_CACHE w) (_LCD_CACHE w) (f (_DHT_CACHE w))
          (LCD1602 w) (stdout w).
Definition with_stdout (f : str -> str) (w : World) : World :=
  mkWorld (DIGITAL_PINS w) (_PWM_CACHE w) (_LCD_CACHE w) (_DHT_CACHE w)
          (LCD1602 w) (f (stdout w)).

(** ** The collaborators

    What the pin, ADC, pulse, display and sensor drivers and the runtime
    answer while one command is handled.  Pins are named by their GPIO
    number, which is also their key in [DIGITAL_PINS]. *)
Record Env : Type := mkEnv {
  (** [Pin.init] raises on this pin *)
  pin_init_raises : Z -> bool;
  (** the level present on the pin when it is sampled as an input *)
  pin_level : Z -> Z;
  (** [ADC.read_u16()] of this channel *)
  adc_u16 : Z -> Z;
  (** [time_pulse_us(pin, 1, 30000)]; [None] when it raises *)
  pulse_us : Z -> option Z;
  (** [Pin(n, Pin.IN)] accepts the number [n] *)
  gpio_exists : Z -> bool;
  (** [measure()] then [temperature()], [humidity()] of the sensor of this
      kind on this pin; [None] when the measurement raises *)
  dht_measure : Z -> Z -> option (Q * Q);
  (** [lcd.clear()] raises *)
  lcd_clear_raises : bool;
  (** significant bits of a float *)
  float_prec : Z;
  (** how [str.format] prints a float *)
  float_repr : Q -> str
}.

(** ** Computations over the module state *)

Definition M (A : Type) : Type := World -> res A * World.

Definition ret {A} (a : A) : M A := fun w => (Ret a, w).
Definition raise {A} (e : exn) : M A := fun w => (Raise e, w).
Definition bind {A B} (m : M A) (k : A -> M B) : M B :=
  fun w => match m w with
           | (Ret a, w') => k a w'
           | (Raise e, w') => (Raise e, w')
           end.
(** [try: m  except Exception: h]. *)
Definition try_except {A} (m : M A) (h : exn -> M A) : M A :=
  fun w => match m w with
           | (Ret a, w') => (Ret a, w')
           | (Raise e, w') => h e w'
           end.
Definition modify (f : World -> World) : M unit := fun w => (Ret tt, f w).
Definition gets {A} (f : World -> A) : M A := fun w => (Ret (f w), w).

Notation "x <- m ;; k" := (bind m (fun x => k))
  (at level 100, m at next level, right associativity).
Notation "m ;;; k" := (bind m (fun _ => k))
  (at level 100, right associativity).

(** ** Driver calls *)

(** [pin.init(mode=..., value=...)] on the pin [id]. *)
Definition Pin_init (env : Env) (id : Z) (mode : PinMode) (value : option Z)
    : M unit :=
  if pin_init_raises env id then raise (OSError "Pin.init")
  else modify (with_pins
         (alter (fun p => mkPin mode (default (pin_out p) value)) id)).

(** [pin.value(v)]: sets the output latch. *)
Definition Pin_set (id : Z) (v : Z) : M unit :=
  modify (with_pins (alter (fun p => mkPin (pin_mode p) v) id)).

(** [pin.value()]: an input pin reads the level present on it, an output
    pin reads back the level it drives. *)
Definition Pin_get (env : Env) (id : Z) : M Z :=
  gets (fun w => match DIGITAL_PINS w !! id with
                 | Some p => match pin_mode p with
                             | Pin_IN => pin_level env id
                             | Pin_OUT => pin_out p
                             end
                 | None => 0
                 end).

(** [Pin(n, Pin.IN)]: a handle made from the raw number.  It configures
    the GPIO [n] as an input; when [n] is also a key of [DIGITAL_PINS], that
    entry names the same GPIO. *)
Definition Pin_new_IN (env : Env) (n : Z) : M unit :=
  if gpio_exists env n then
    modify (with_pins (alter (fun p => mkPin Pin_IN (pin_out p)) n))
  else raise (ValueError "invalid pin").

(** [DIGITAL_PINS.get(pin_no)] followed by the [None] test of the
    adapters. *)
Definition digital_pin (pin_no : Z) : M Pin :=
  fun w => match DIGITAL_PINS w !! pin_no with
           | Some p => (Ret p, w)
           | None => (Raise (KeyError "UNKNOWN_DIGITAL_PIN"), w)
           end.

(** One call on the display object of the bus [k]. *)
Definition lcd_do (k : str) (op : LcdOp) : M unit :=
  modify (with_lcd (alter (fun log => log ++ [op]) k)).

(** ** The adapters *)

(** [pinMode(pin_no, mode)] (lines 187-208): nothing to do on an analog
    pin; otherwise the pin has to be a digital one and the mode token, in
    any case, one of [in], [input], [out], [output]. *)
Definition pinMode (env : Env) (pin_no : Z) (mode : str) : M unit :=
  let m := Py.lower mode in
  if bool_decide (pin_no ∈ ANALOG_PINS) then ret tt
  else
    _ <- digital_pin pin_no ;;
    if bool_decide (m ∈ [lit "in"; lit "input"]) then
      Pin_init env pin_no Pin_IN None
    else if bool_decide (m ∈ [lit "out"; lit "output"]) then
      Pin_init env pin_no Pin_OUT None
    else raise (ValueError "UNKNOWN_MODE").

(** [digitalWrite(pin_no, value)] (lines 211-233): the level token is
    [high] or [low] in any case; the pin is made an output at that level,
    or, when [init] raises, only its latch is set. *)
Definition digitalWrite (env : Env) (pin_no : Z) (value : str) : M unit :=
  _ <- digital_pin pin_no ;;
  let token := Py.lower value in
  v <- (if bool_decide (token = lit "high") then ret 1
        else if bool_decide (token = lit "low") then ret 0
        else raise (ValueError "UNKNOWN_LEVEL")) ;;
  try_except (Pin_init env pin_no Pin_OUT (Some v))
             (fun _ => Pin_set pin_no v).

(** [digitalRead(pin_no)] (lines 236-254): the pin is made an input, a
    failure of [init] being ignored, then sampled. *)
Definition digitalRead (env : Env) (pin_no : Z) : M Z :=
  _ <- digital_pin pin_no ;;
  try_except (Pin_init env pin_no Pin_IN None) (fun _ => ret tt) ;;;
  v <- Pin_get env pin_no ;;
  ret (if v =? 0 then 0 else 1).

(** [analogRead(pin_no)] (lines 257-269). *)
Definition analogRead (env : Env) (pin_no : Z) : M Z :=
  if bool_decide (pin_no ∈ ANALOG_PINS) then ret (adc_u16 env pin_no)
  else raise (KeyError "UNKNOWN_ANALOG_PIN").

(** [analogWrite(pin_no, value)] (lines 272-296): the PWM channel of the
    pin is taken from [_PWM_CACHE] or made at 1 kHz; [int(value)] is the
    value itself, the dispatcher passing an [int]. *)
Definition analogWrite (env : Env) (pin_no : Z) (value : Z) : M unit :=
  _ <- digital_pin pin_no ;;
  cached <- gets (fun w => _PWM_CACHE w !! pin_no) ;;
  (match cached with
   | None => modify (with_pwm (insert pin_no (mkPWM 1000 0)))
   | Some _ => ret tt
   end) ;;;
  let v := value in
  let v := if v <? 0 then 0 else v in
  let v := if 255 <? v then 255 else v in
  let duty := v * 257 in
  modify (with_pwm (alter (fun c => mkPWM (pwm_freq c) duty) pin_no)).

(** [ultrasonicRead(pin_no)] (lines 299-331): the trigger pulse, the echo
    measured with a time-out of 30000 microseconds, and the distance
    [int(duration / 58.0 + 0.5)] in float arithmetic.  The waits between
    the edges of the trigger leave no trace in the state. *)
Definition ultrasonicRead (env : Env) (pin_no : Z) : M Z :=
  _ <- digital_pin pin_no ;;
  Pin_init env pin_no Pin_OUT None ;;;
  Pin_set pin_no 0 ;;;
  Pin_set pin_no 1 ;;;
  Pin_set pin_no 0 ;;;
  Pin_init env pin_no Pin_IN None ;;;
  duration <- (match pulse_us env pin_no with
               | Some d => ret d
               | None => raise (RuntimeError "PULSE_TIMEOUT")
               end) ;;
  if duration <=? 0 then raise (RuntimeError "PULSE_ERROR")
  else
    let p := float_prec env in
    let distance_cm := Float.div p (Float.of_int p duration) 58 in
    ret (Float.to_int (Float.add p distance_cm (1 # 2))).

(** [_get_lcd(key)] (lines 53-72): the display object of a bus, named here
    by its key in [_LCD_CACHE]; a new object has received no call. *)
Definition _get_lcd (key : str) : M str :=
  let k := Py.lower key in
  fun w =>
    if bool_decide (is_Some (_LCD_CACHE w !! k)) then (Ret k, w)
    else match LCD1602 w with
         | None => (Raise (RuntimeError "LCD_DRIVER_NOT_AVAILABLE"), w)
         | Some _ =>
             if bool_decide (k ∈ I2C_BUSES) then
               (Ret k, with_lcd (insert k []) w)
             else (Raise (KeyError "UNKNOWN_LCD_CHANNEL"), w)
         end.

(** [write_lcd(name, raw_text)] (lines 75-108); [raw_text] is always a
    [str], so the [isinstance] branch is not taken. *)
Definition write_lcd (env : Env) (name : str) (raw_text : str) : M unit :=
  lcd <- _get_lcd name ;;
  let text := Py.strip raw_text in
  let text := Py.replace LF SP (Py.replace CR SP text) in
  let text := Py.slice_to text 32 in
  let line1 := Py.slice_to text 16 in
  let line2 := Py.slice text 16 32 in
  try_except
    (if lcd_clear_raises env then raise (OSError "clear")
     else lcd_do lcd lcd_clear)
    (fun _ => ret tt) ;;;
  lcd_do lcd lcd_home ;;;
  lcd_do lcd (lcd_print line1) ;;;
  match line2 with
  | [] => ret tt
  | _ => lcd_do lcd (lcd_setCursor 0 1) ;;; lcd_do lcd (lcd_print line2)
  end.

(** The bus token of [setText] and [setRGB] turned into a key of
    [I2C_BUSES]. *)
Definition bus_key (bus : str) : option str :=
  let bus_token := Py.lower bus in
  if bool_decide (bus_token ∈ [lit "0"; lit "i2c0"]) then Some (lit "i2c0")
  else if bool_decide (bus_token ∈ [lit "1"; lit "i2c1"]) then
    Some (lit "i2c1")
  else None.

(** [setText(bus, text)] (lines 334-348). *)
Definition setText (env : Env) (bus : str) (text : str) : M unit :=
  match bus_key bus with
  | Some key => write_lcd env key text
  | None => raise (ValueError "UNKNOWN_I2C_BUS")
  end.

(** [setRGB(bus, r, g, b)] (lines 351-370); [hasattr(lcd, "set_rgb")] is
    a property of the driver class. *)
Definition setRGB (env : Env) (bus : str) (r g b : Z) : M unit :=
  match bus_key bus with
  | Some key =>
      lcd <- _get_lcd key ;;
      cls <- gets LCD1602 ;;
      if from_option has_set_rgb false cls then lcd_do lcd (lcd_set_rgb r g b)
      else ret tt
  | None => raise (ValueError "UNKNOWN_I2C_BUS")
  end.

(** [dhtRead(pin_no, module_type)] (lines 373-412): the pin handle is made
    from the raw number, the module type selects the sensor class, and the
    measurement runs in a [try] whose handler falls back on [_DHT_CACHE]. *)
Definition dhtRead (env : Env) (pin_no module_type : Z) : M (Q * Q) :=
  Pin_new_IN env pin_no ;;;
  (if (module_type =? 0) || (module_type =? 1) then ret tt
   else raise (ValueError "UNKNOWN_DHT_MODULE_TYPE")) ;;;
  let key := (pin_no, module_type) in
  (* [Some th]: the handler returned [th]; [None]: the [try] block ended *)
  early <- try_except
    (match dht_measure env pin_no module_type with
     | Some (temp, hum) =>
         modify (with_dht (insert key (temp, hum))) ;;; ret None
     | None => raise (OSError "measure")
     end)
    (fun e =>
       cached <- gets (fun w => _DHT_CACHE w !! key) ;;
       match cached with
       | Some th => ret (Some th)
       | None => raise e
       end) ;;
  match early with
  | Some th => ret th
  | None =>
      cached <- gets (fun w => _DHT_CACHE w !! key) ;;
      match cached with
      | Some th => ret th
      | None => raise (KeyError "_DHT_CACHE")
      end
  end.

(** ** The dispatcher *)

(** [sys.stdout.write(s)]. *)
Definition write (s : str) : World -> World :=
  with_stdout (fun out => out ++ s).

(** [send_number(n)] (lines 145-155); [n] is always an [int], so that the
    fallback on ["0"] is not taken. *)
Definition send_number (n : Z) : World -> World :=
  write (Py.str_of_int n ++ [LF]).

(** The line of every failure. *)
Definition error_line : str := lit "error" ++ [LF].

Definition send_error : World -> World := write error_line.

(** [send_two_floats(a, b)] (lines 166-172). *)
Definition send_two_floats (env : Env) (a b : Q) : World -> World :=
  write (float_repr env a ++ [SP] ++ float_repr env b ++ [LF]).

(** [try: v = m; ok(v)  except Exception: send_error()]. *)
Definition attempt {A} (m : M A) (ok : A -> World -> World)
    : World -> World :=
  fun w => match m w with
           | (Ret a, w') => ok a w'
           | (Raise _, w') => send_error w'
           end.

(** [handle_command(line)] (lines 448-654): one branch per command name,
    each one splitting the arguments, checking their number, converting
    the integers and calling the adapter inside a [try]. *)
Definition handle_command (env : Env) (line : str) : World -> World :=
  match _parse_call line with
  | None => send_error
  | Some ([], _) => send_error
  | Some (name, args_str) =>
    let cmd := Py.lower name in
    if bool_decide (cmd = lit "pinmode") then
      match _split_args args_str (-1) with
      | [a0; mode] =>
          match _parse_int a0 with
          | None => send_error
          | Some pin_no => attempt (pinMode env pin_no mode) (fun _ => write [LF])
          end
      | _ => send_error
      end
    else if bool_decide (cmd = lit "digitalwrite") then
      match _split_args args_str (-1) with
      | [a0; a1] =>
          match _parse_int a0 with
          | None => send_error
          | Some pin_no => attempt (digitalWrite env pin_no a1) (fun _ => write [LF])
          end
      | _ => send_error
      end
    else if bool_decide (cmd = lit "digitalread") then
      match _split_args args_str (-1) with
      | [a0] =>
          match _parse_int a0 with
          | None => send_error
          | Some pin_no => attempt (digitalRead env pin_no) send_number
          end
      | _ => send_error
      end
    else if bool_decide (cmd = lit "analogread") then
      match _split_args args_str (-1) with
      | [a0] =>
          match _parse_int a0 with
          | None => send_error
          | Some pin_no => attempt (analogRead env pin_no) send_number
          end
      | _ => send_error
      end
    else if bool_decide (cmd = lit "analogwrite") then
      match _split_args args_str (-1) with
      | [a0; a1] =>
          match _parse_int a0, _parse_int a1 with
          | Some pin_no, Some value =>
              attempt (analogWrite env pin_no value) (fun _ => write [LF])
          | _, _ => send_error
          end
      | _ => send_error
      end
    else if bool_decide (cmd = lit "ultrasonicread") then
      match _split_args args_str (-1) with
      | [a0] =>
          match _parse_int a0 with
          | None => send_error
          | Some pin_no => attempt (ultrasonicRead env pin_no) send_number
          end
      | _ => send_error
      end
    else if bool_decide (cmd = lit "settext") then
      match _split_args args_str 1 with
      | [a0; text] =>
          let bus_token := Py.lower a0 in
          match bus_key a0 with
          | None => send_error
          | Some _ => attempt (setText env bus_token text) (fun _ => write [LF])
          end
      | _ => send_error
      end
    else if bool_decide (cmd = lit "setrgb") then
      match _split_args args_str (-1) with
      | [a0; a1; a2; a3] =>
          let bus_token := Py.lower a0 in
          match bus_key a0 with
          | None => send_error
          | Some _ =>
              match _parse_int a1, _parse_int a2, _parse_int a3 with
              | Some r, Some g, Some b =>
                  attempt (setRGB env bus_token r g b) (fun _ => write [LF])
              | _, _, _ => send_error
              end
          end
      | _ => send_error
      end
    else if bool_decide (cmd = lit "dhtread") then
      match _split_args args_str (-1) with
      | [a0; a1] =>
          match _parse_int a0, _parse_int a1 with
          | Some pin_no, Some module_type =>
              attempt (dhtRead env pin_no module_type)
                      (fun th => send_two_floats env th.1 th.2)
          | _, _ => send_error
          end
      | _ => send_error
      end
    else send_error
  end.

(** The text written by a command: what it appended to [stdout]. *)
Definition response (env : Env) (line : str) (w : World) : str :=
  drop (length (stdout w)) (stdout (handle_command env line w)).

(** A collaborator for the examples: every driver call succeeds, every pin
    reads low, the echo lasts 580 microseconds, the sensor answers 21.5
    degrees and 40 percent, floats have single precision and are printed,
    for short, by their integer part. *)
Definition env0 : Env :=
  {| pin_init_raises := fun _ => false;
     pin_level := fun _ => 0;
     adc_u16 := fun _ => 512;
     pulse_us := fun _ => Some 580;
     gpio_exists := fun n => (0 <=? n) && (n <=? 29);
     dht_measure := fun _ _ => Some (43 # 2, 40 # 1)%Q;
     lcd_clear_raises := false;
     float_prec := 24;
     float_repr := fun q => Py.str_of_int (Qfloor q) |}.

Definition w0 : World := boot (Some (mkLcdClass true)).

(** ** Vocabulary of the properties *)

(** Empty or made of whitespace only. *)
Definition blank (s : str) : Prop := Forall (fun c => Py.isspace c = true) s.

(** [c.join(pieces)] for a one-character [c]. *)
Fixpoint join (c : ascii) (pieces : list str) : str :=
  match pieces with
  | [] => []
  | [p] => p
  | p :: ps => p ++ c :: join c ps
  end.

(** A display character: carriage return and line feed become a space. *)
Definition unbreak (c : ascii) : ascii :=
  if bool_decide (c = CR \/ c = LF) then SP else c.

(** The text [write_lcd] puts on the display: trimmed, without line breaks,
    cut after 32 characters. *)
Definition shown (text : str) : str := take 32 (map unbreak (Py.strip text)).

(** *** The dispatcher in stages

    The same dispatcher as [handle_command], cut into the stages the
    properties speak of: the command named, its arguments split and
    converted, the adapter called, the answer written.
    [handle_command_staged] shows that the two agree. *)

Inductive command : Type :=
| cmd_pinMode | cmd_digitalWrite | cmd_digitalRead | cmd_analogRead
| cmd_analogWrite | cmd_ultrasonicRead | cmd_setText | cmd_setRGB
| cmd_dhtRead.

Global Instance command_eq_dec : EqDecision command.
Proof. solve_decision. Defined.

(** The recognized names, in lower case. *)
Definition command_names : list (str * command) :=
  [(lit "pinmode", cmd_pinMode); (lit "digitalwrite", cmd_digitalWrite);
   (lit "digitalread", cmd_digitalRead); (lit "analogread", cmd_analogRead);
   (lit "analogwrite", cmd_analogWrite);
   (lit "ultrasonicread", cmd_ultrasonicRead); (lit "settext", cmd_setText);
   (lit "setrgb", cmd_setRGB); (lit "dhtread", cmd_dhtRead)].

Definition command_of (cmd : str) : option command :=
  snd <$> List.find (fun nc => bool_decide (cmd = nc.1)) command_names.

(** The number of arguments of a command, the [maxsplit] its arguments are
    split with, and the positions of its integer arguments. *)
Definition arity (c : command) : nat :=
  match c with
  | cmd_digitalRead | cmd_analogRead | cmd_ultrasonicRead => 1
  | cmd_setRGB => 4
  | _ => 2
  end.

Definition maxsplit_of (c : command) : Z :=
  match c with cmd_setText => 1 | _ => -1 end.

Definition int_args (c : command) : list nat :=
  match c with
  | cmd_analogWrite | cmd_dhtRead => [0; 1]
  | cmd_setText => []
  | cmd_setRGB => [1; 2; 3]
  | _ => [0]
  end%nat.

(** An adapter call with its converted arguments. *)
Inductive call : Type :=
| c_pinMode (pin_no : Z) (mode : str)
| c_digitalWrite (pin_no : Z) (value : str)
| c_digitalRead (pin_no : Z)
| c_analogRead (pin_no : Z)
| c_analogWrite (pin_no value : Z)
| c_ultrasonicRead (pin_no : Z)
| c_setText (bus text : str)
| c_setRGB (bus : str) (r g b : Z)
| c_dhtRead (pin_no module_type : Z).

(** What a successful call answers. *)
Inductive reply : Type :=
| r_empty
| r_number (n : Z)
| r_floats (a b : Q).

Definition build (c : command) (parts : list str) : option call :=
  match c, parts with
  | cmd_pinMode, [a0; mode] =>
      pin_no ← _parse_int a0; Some (c_pinMode pin_no mode)
  | cmd_digitalWrite, [a0; value] =>
      pin_no ← _parse_int a0; Some (c_digitalWrite pin_no value)
  | cmd_digitalRead, [a0] => c_digitalRead <$> _parse_int a0
  | cmd_analogRead, [a0] => c_analogRead <$> _parse_int a0
  | cmd_analogWrite, [a0; a1] =>
      pin_no ← _parse_int a0; value ← _parse_int a1;
      Some (c_analogWrite pin_no value)
  | cmd_ultrasonicRead, [a0] => c_ultrasonicRead <$> _parse_int a0
  | cmd_setText, [a0; text] =>
      _ ← bus_key a0; Some (c_setText (Py.lower a0) text)
  | cmd_setRGB, [a0; a1; a2; a3] =>
      _ ← bus_key a0;
      r ← _parse_int a1; g ← _parse_int a2; b ← _parse_int a3;
      Some (c_setRGB (Py.lower a0) r g b)
  | cmd_dhtRead, [a0; a1] =>
      pin_no ← _parse_int a0; module_type ← _parse_int a1;
      Some (c_dhtRead pin_no module_type)
  | _, _ => None
  end.

(** The call a line asks for; [None] when the dispatcher rejects the line
    before any adapter is called. *)
Definition dispatch (line : str) : option call :=
  match _parse_call line with
  | None => None
  | Some (name, args_str) =>
      match command_of (Py.lower name) with
      | None => None
      | Some c => build c (_split_args args_str (maxsplit_of c))
      end
  end.

Definition invoke (env : Env) (c : call) : M reply :=
  match c with
  | c_pinMode pin_no mode => pinMode env pin_no mode ;;; ret r_empty
  | c_digitalWrite pin_no value =>
      digitalWrite env pin_no value ;;; ret r_empty
  | c_digitalRead pin_no => v <- digitalRead env pin_no ;; ret (r_number v)
  | c_analogRead pin_no => v <- analogRead env pin_no ;; ret (r_number v)
  | c_analogWrite pin_no value =>
      analogWrite env pin_no value ;;; ret r_empty
  | c_ultrasonicRead pin_no =>
      v <- ultrasonicRead env pin_no ;; ret (r_number v)
  | c_setText bus text => setText env bus text ;;; ret r_empty
  | c_setRGB bus r g b => setRGB env bus r g b ;;; ret r_empty
  | c_dhtRead pin_no module_type =>
      th <- dhtRead env pin_no module_type ;; ret (r_floats th.1 th.2)
  end.

Definition send_reply (env : Env) (r : reply) : World -> World :=
  match r with
  | r_empty => write [LF]
  | r_number n => send_number n
  | r_floats a b => send_two_floats env a b
  end.

(** The state after a sequence of calls, each with what the collaborators
    answered during it. *)
Definition run (history : list (Env * call)) (w : World) : World :=
  foldl (fun w ec => (invoke ec.1 ec.2 w).2) w history.

(** The reading of the most recent successful measurement of a sensor in a
    sequence of calls: a [dhtRead] of that pin and kind whose pin handle
    was made and whose measurement did not raise. *)
Definition measured (key : Z * Z) (ec : Env * call) : option (Q * Q) :=
  match ec.2 with
  | c_dhtRead pin_no module_type =>
      if bool_decide ((pin_no, module_type) = key)
         && gpio_exists ec.1 pin_no
         && ((module_type =? 0) || (module_type =? 1))
      then dht_measure ec.1 pin_no module_type
      else None
  | _ => None
  end.

Definition last_good (key : Z * Z) (history : list (Env * call))
    : option (Q * Q) :=
  foldl (fun acc ec => match measured key ec with
                       | Some th => Some th
                       | None => acc
                       end) None history.

(** The causes of failure of a command line: it is not a call; it names no
    recognized command; its argument count is not the one of the command;
    an argument that has to be an integer is not one; the adapter called
    raises. *)
Inductive failure (env : Env) (w : World) (line : str) : Prop :=
| malformed_line :
    _parse_call line = None -> failure env w line
| unknown_command name args_str :
    _parse_call line = Some (name, args_str) ->
    command_of (Py.lower name) = None ->
    failure env w line
| arity_mismatch name args_str c :
    _parse_call line = Some (name, args_str) ->
    command_of (Py.lower name) = Some c ->
    length (_split_args args_str (maxsplit_of c)) <> arity c ->
    failure env w line
| unparsable_integer name args_str c i token :
    _parse_call line = Some (name, args_str) ->
    command_of (Py.lower name) = Some c ->
    i ∈ int_args c ->
    _split_args args_str (maxsplit_of c) !! i = Some token ->
    _parse_int token = None ->
    failure env w line
| adapter_raised c e w' :
    dispatch line = Some c ->
    invoke env c w = (Raise e, w') ->
    failure env w line.

(** [2 ^ e] for an integer exponent of either sign. *)
Definition pow2 (e : Z) : Q := ((2 # 1) ^ e)%Q.

(** A float with at most [p] significant bits: [M * 2 ^ k] with
    [0 < M < 2 ^ p]. *)
Definition representable (p : Z) (y : Q) : Prop :=
  exists M k, 0 < M < 2 ^ p /\ (y == inject_Z M * pow2 k)%Q.

(** ** The session loop *)

(** The board: the module state and the level of the on-board LED. *)
Record Board : Type := mkBoard { world : World; LED : Z }.

(** [read_line()] (lines 129-143) on what [sys.stdin.readline()] returned:
    the empty string at the end of the input, a line otherwise.  The line
    is a [str] already, which [_to_str] returns as it is. *)
Definition read_line (raw : str) : option str :=
  match raw with
  | [] => None
  | _ => Some (Py.strip raw)
  end.

(** One turn of the loop of [main()] (lines 656-666): nothing when no line
    was read; otherwise the LED is raised, the line handled and the LED
    lowered.  [handle_command] raises nothing, so that the [finally] clause
    is reached after it. *)
Definition main_turn (env : Env) (raw : str) (b : Board) : Board :=
  match read_line raw with
  | None => b
  | Some line =>
      let b := mkBoard (world b) 1 in
      let b := mkBoard (handle_command env line (world b)) (LED b) in
      mkBoard (world b) 0
  end.

(** The turns of the loop on the first reads of a session, each with what
    the collaborators answered during it. *)
Definition main_turns (reads : list (Env * str)) (b : Board) : Board :=
  foldl (fun b er => main_turn er.1 er.2 b) b reads.

(** ** Vocabulary of the further properties *)

(** Every PWM channel in the cache belongs to a recognized digital pin,
    runs at 1 kHz and has a duty within 16 bits. *)
Definition pwm_ok (w : World) : Prop :=
  forall P c,
    _PWM_CACHE w !! P = Some c ->
    is_Some (DIGITAL_PINS w !! P) /\ pwm_freq c = 1000 /\
    0 <= pwm_duty c <= 65535.

(** The elementary updates of the module state: a change of one pin
    object, a new PWM channel for a recognized pin, a new duty, a new
    display object for a bus when the driver is there, one more call on a
    display object, a reading stored for a sensor. *)
Inductive update : World -> World -> Prop :=
| update_pin id f w :
    update w (with_pins (alter f id) w)
| update_pwm_new P w :
    is_Some (DIGITAL_PINS w !! P) -> _PWM_CACHE w !! P = None ->
    update w (with_pwm (insert P (mkPWM 1000 0)) w)
| update_pwm_duty P v w :
    0 <= v <= 255 ->
    update w (with_pwm (alter (fun c => mkPWM (pwm_freq c) (v * 257)) P) w)
| update_lcd_new k w :
    k ∈ I2C_BUSES -> is_Some (LCD1602 w) -> _LCD_CACHE w !! k = None ->
    update w (with_lcd (insert k []) w)
| update_lcd_call k op w :
    update w (with_lcd (alter (fun log => log ++ [op]) k) w)
| update_dht pin mt th w :
    mt = 0 \/ mt = 1 ->
    update w (with_dht (insert (pin, mt) th) w).

(** A computation that changes the state by elementary updates only. *)
Definition updates {A} (m : M A) : Prop := forall w, rtc update w (m w).2.

(** The board after import: the LED is low. *)
Definition board0 (driver : option LcdClass) : Board := mkBoard (boot driver) 0.

(** What a call may touch: digital pins, each with its PWM channel, the
    display objects of buses, and the readings kept for sensors. *)
Record Footprint : Type := mkFootprint {
  fp_pins : list Z;
  fp_buses : list str;
  fp_sensors : list (Z * Z)
}.

Definition footprint (c : call) : Footprint :=
  match c with
  | c_pinMode pin_no _ | c_digitalWrite pin_no _ | c_digitalRead pin_no
  | c_analogWrite pin_no _ | c_ultrasonicRead pin_no =>
      mkFootprint [pin_no] [] []
  | c_analogRead _ => mkFootprint [] [] []
  | c_setText bus _ | c_setRGB bus _ _ _ =>
      mkFootprint [] (option_list (bus_key bus)) []
  | c_dhtRead pin_no module_type =>
      mkFootprint [pin_no] [] [(pin_no, module_type)]
  end.

(** [w'] is [w] outside of a footprint. *)
Definition outside (f : Footprint) (w w' : World) : Prop :=
  (forall P, P ∉ fp_pins f ->
     DIGITAL_PINS w' !! P = DIGITAL_PINS w !! P /\
     _PWM_CACHE w' !! P = _PWM_CACHE w !! P) /\
  (forall k, k ∉ fp_buses f -> _LCD_CACHE w' !! k = _LCD_CACHE w !! k) /\
  (forall s, s ∉ fp_sensors f -> _DHT_CACHE w' !! s = _DHT_CACHE w !! s) /\
  LCD1602 w' = LCD1602 w /\ stdout w' = stdout w.

Definition touches {A} (f : Footprint) (m : M A) : Prop :=
  forall w, outside f w (m w).2.

Definition returns {A} (m : M A) (a : A) : Prop :=
  exists w, (m w).1 = Ret a.

(** The line a successful call is answered with. *)
Definition reply_line (env : Env) (r : reply) : str :=
  match r with
  | r_empty => [LF]
  | r_number n => Py.str_of_int n ++ [LF]
  | r_floats a b => float_repr env a ++ [SP] ++ float_repr env b ++ [LF]
  end.

(** The number of line ends in a text. *)
Definition line_count (out : str) : nat :=
  length (filter (fun x => x = LF) out).

(** * Properties *)

(** ** Examples *)

Example parse_call_ex1 :
  _parse_call (lit "pinMode(16, OUTPUT)") = Some (lit "pinMode", lit "16, OUTPUT").
Proof. reflexivity. Qed.

Example parse_call_ex2 : _parse_call (lit "foo") = None.
Proof. reflexivity. Qed.

Example split_args_ex1 :
  _split_args (lit "0, a, b,,") (-1) = [lit "0"; lit "a"; lit "b"].
Proof. reflexivity. Qed.

Example split_args_ex2 :
  _split_args (lit "0, a, b,,") 1 = [lit "0"; lit "a, b,,"].
Proof. reflexivity. Qed.

Example parse_int_ex : _parse_int (lit "-12") = Some (-12) /\ _parse_int (lit "1x") = None.
Proof. split; reflexivity. Qed.

Example ex_malformed : response env0 (lit "foo") w0 = lit "error" ++ [LF].
Proof. vm_compute. reflexivity. Qed.

Example ex_arity : response env0 (lit "pinMode(16)") w0 = lit "error" ++ [LF].
Proof. vm_compute. reflexivity. Qed.

Example ex_bogus : response env0 (lit "pinMode(16,BOGUS)") w0 = lit "error" ++ [LF].
Proof. vm_compute. reflexivity. Qed.

Example ex_unknown : response env0 (lit "unknownCmd(1)") w0 = lit "error" ++ [LF].
Proof. vm_compute. reflexivity. Qed.

Example ex_pinmode : response env0 (lit "pinMode(16, Output)") w0 = [LF].
Proof. vm_compute. reflexivity. Qed.

Example ex_ultrasonic : response env0 (lit "ultrasonicRead(16)") w0 = lit "10" ++ [LF].
Proof. vm_compute. reflexivity. Qed.

Example ex_settext :
  _LCD_CACHE (handle_command env0 (lit "setText(0, Hello, world: 1234567890)") w0)
    !! lit "i2c0"
  = Some [lcd_clear; lcd_home; lcd_print (lit "Hello, world: 12");
          lcd_setCursor 0 1; lcd_print (lit "34567890")].
Proof. vm_compute. reflexivity. Qed.

Example ex_dht : response env0 (lit "dhtRead(2, 1)") w0 = lit "21 40" ++ [LF].
Proof. vm_compute. reflexivity. Qed.

(** The rounding agrees with the IEEE 754 values of one tenth in single and
    in double precision, and breaks ties towards the even significand. *)
Example round_single_tenth :
  (Float.round 24 (1 # 10) == 13421773 # 134217728)%Q.
Proof. reflexivity. Qed.
Example round_double_tenth :
  (Float.round 53 (1 # 10) == 3602879701896397 # 36028797018963968)%Q.
Proof. reflexivity. Qed.
Example round_single_ties :
  (Float.round 24 (inject_Z 16777217) == inject_Z 16777216)%Q /\
  (Float.round 24 (inject_Z 16777219) == inject_Z 16777220)%Q.
Proof. split; reflexivity. Qed.

(** ** Facts about the string functions *)

Section strings.
Implicit Types (s a b c r : str) (x y : ascii).

Lemma lstrip_blank s : blank s -> Py.lstrip s = [].
Proof. induction 1 as [|x s Hx _ IH]; simpl; [done|]. by rewrite Hx. Qed.

Lemma lstrip_nil s : Py.lstrip s = [] -> blank s.
Proof.
  induction s as [|x s IH]; simpl; [constructor|].
  destruct (Py.isspace x) eqn:Hx; [|done].
  intros H. constructor; [exact Hx|by apply IH].
Qed.

Lemma lstrip_nil_iff s : Py.lstrip s = [] <-> blank s.
Proof. split; auto using lstrip_nil, lstrip_blank. Qed.

Lemma lstrip_app_nonspace a x r :
  Py.isspace x = false -> Py.lstrip (a ++ x :: r) = Py.lstrip a ++ x :: r.
Proof.
  intros Hx. induction a as [|y a IH]; simpl.
  - by rewrite Hx.
  - destruct (Py.isspace y); [apply IH|done].
Qed.

Lemma lstrip_suffix s : exists w, s = w ++ Py.lstrip s /\ blank w.
Proof.
  induction s as [|x s (w & Hw & Hb)]; simpl.
  - exists []. split; [done|constructor].
  - destruct (Py.isspace x) eqn:Hx.
    + exists (x :: w). split; [simpl; congruence|by constructor].
    + exists []. split; [done|constructor].
Qed.

Lemma lstrip_head s x r : Py.lstrip s = x :: r -> Py.isspace x = false.
Proof.
  induction s as [|y s IH]; simpl; [done|].
  destruct (Py.isspace y) eqn:Hy; [done|]. congruence.
Qed.

Lemma lstrip_idemp s : Py.lstrip (Py.lstrip s) = Py.lstrip s.
Proof.
  destruct (Py.lstrip s) as [|x r] eqn:E; [done|].
  simpl. by rewrite (lstrip_head _ _ _ E).
Qed.

Lemma blank_rev s : blank (rev s) <-> blank s.
Proof.
  unfold blank. rewrite !Forall_forall. split; intros H x Hx; apply H.
  - by apply list_elem_of_In, in_rev, list_elem_of_In in Hx.
  - by apply list_elem_of_In, in_rev in Hx; apply list_elem_of_In.
Qed.

Lemma blank_app a b : blank (a ++ b) <-> blank a /\ blank b.
Proof. apply Forall_app. Qed.

Lemma rstrip_blank s : blank s -> Py.rstrip s = [].
Proof. intros H. unfold Py.rstrip. by rewrite lstrip_blank; [|apply blank_rev]. Qed.

Lemma rstrip_nil_iff s : Py.rstrip s = [] <-> blank s.
Proof.
  unfold Py.rstrip. split.
  - intros H. apply blank_rev, lstrip_nil.
    apply (f_equal (@rev ascii)) in H. by rewrite rev_involutive in H.
  - apply rstrip_blank.
Qed.

Lemma rstrip_app_nonspace r x c :
  Py.isspace x = false -> Py.rstrip (r ++ x :: c) = r ++ x :: Py.rstrip c.
Proof.
  intros Hx. unfold Py.rstrip.
  rewrite rev_app_distr. simpl. rewrite <- app_assoc. simpl.
  rewrite lstrip_app_nonspace by done.
  rewrite rev_app_distr. simpl. rewrite rev_involutive.
  by rewrite <- app_assoc.
Qed.

Lemma rstrip_prefix s : exists w, s = Py.rstrip s ++ w /\ blank w.
Proof.
  destruct (lstrip_suffix (rev s)) as (w & Hw & Hb).
  exists (rev w). split; [|by apply blank_rev].
  unfold Py.rstrip. rewrite <- rev_app_distr, <- Hw. by rewrite rev_involutive.
Qed.

Lemma strip_blank s : blank s -> Py.strip s = [].
Proof. intros H. unfold Py.strip. by rewrite lstrip_blank. Qed.

Lemma strip_nil_iff s : Py.strip s = [] <-> blank s.
Proof.
  unfold Py.strip. rewrite rstrip_nil_iff. split.
  - intros H. destruct (lstrip_suffix s) as (w & Hw & Hb).
    rewrite Hw. by apply blank_app.
  - intros H. by rewrite lstrip_blank; [constructor|].
Qed.

Lemma strip_lstrip s : Py.strip (Py.lstrip s) = Py.strip s.
Proof. unfold Py.strip. by rewrite lstrip_idemp. Qed.

(** The stripped line sits inside the line between two blank margins. *)
Lemma strip_margins s :
  exists w1 w2, s = w1 ++ Py.strip s ++ w2 /\ blank w1 /\ blank w2.
Proof.
  destruct (lstrip_suffix s) as (w1 & H1 & B1).
  destruct (rstrip_prefix (Py.lstrip s)) as (w2 & H2 & B2).
  exists w1, w2. unfold Py.strip. by rewrite <- H2.
Qed.

Lemma nonspace_not_in_blank x w : Py.isspace x = false -> blank w -> x ∉ w.
Proof.
  intros Hx Hw Hin. unfold blank in Hw. rewrite Forall_forall in Hw.
  specialize (Hw _ Hin). congruence.
Qed.

Lemma elem_of_strip x s : Py.isspace x = false -> x ∈ Py.strip s <-> x ∈ s.
Proof.
  intros Hx. destruct (strip_margins s) as (w1 & w2 & E & B1 & B2).
  rewrite E at 2. rewrite !elem_of_app.
  pose proof (nonspace_not_in_blank x w1 Hx B1).
  pose proof (nonspace_not_in_blank x w2 Hx B2). tauto.
Qed.

(** [find] and [rfind]. *)

Lemma find_from_notin x s i : x ∉ s -> Py.find_from x s i = -1.
Proof.
  revert i. induction s as [|y s IH]; intros i Hn; simpl; [done|].
  apply not_elem_of_cons in Hn as [Hne Hn].
  destruct (Ascii.eqb_spec y x); [congruence|]. by apply IH.
Qed.

Lemma find_from_app x a b i :
  x ∉ a -> Py.find_from x (a ++ x :: b) i = i + Py.len a.
Proof.
  unfold Py.len. revert i. induction a as [|y a IH]; intros i Hn; simpl.
  - rewrite Ascii.eqb_refl. lia.
  - apply not_elem_of_cons in Hn as [Hne Hn].
    destruct (Ascii.eqb_spec y x); [congruence|]. rewrite IH by done. lia.
Qed.

Lemma rfind_from_app_gen x a b i last :
  Py.rfind_from x (a ++ b) i last
  = Py.rfind_from x b (i + Py.len a) (Py.rfind_from x a i last).
Proof.
  unfold Py.len. revert i last. induction a as [|y a IH]; intros i last; simpl.
  - by rewrite Z.add_0_r.
  - rewrite IH. f_equal. lia.
Qed.

Lemma rfind_from_notin x s i last : x ∉ s -> Py.rfind_from x s i last = last.
Proof.
  revert i last. induction s as [|y s IH]; intros i last Hn; simpl; [done|].
  apply not_elem_of_cons in Hn as [Hne Hn].
  destruct (Ascii.eqb_spec y x); [congruence|]. by apply IH.
Qed.

Lemma rfind_from_app x a b i last :
  x ∉ b -> Py.rfind_from x (a ++ x :: b) i last = i + Py.len a.
Proof.
  intros Hn. rewrite rfind_from_app_gen. simpl.
  rewrite Ascii.eqb_refl. by apply rfind_from_notin.
Qed.

Lemma rfind_from_bound x s i last :
  last < i -> Py.rfind_from x s i last < i + Py.len s.
Proof.
  unfold Py.len. revert i last. induction s as [|y s IH]; intros i last Hl; simpl.
  - lia.
  - destruct (Ascii.eqb y x).
    + specialize (IH (i + 1) i). lia.
    + specialize (IH (i + 1) last). lia.
Qed.

(** Slices with bounds inside the string. *)

Lemma slice_inside s lo hi :
  0 <= lo <= hi -> hi <= Py.len s ->
  Py.slice s lo hi = take (Z.to_nat (hi - lo)) (drop (Z.to_nat lo) s).
Proof.
  intros Hlo Hhi. unfold Py.slice, Py.bound.
  destruct (Z.ltb_spec lo 0); [lia|].
  destruct (Z.ltb_spec hi 0); [lia|].
  by rewrite !Z.min_l by lia.
Qed.

Lemma slice_to_app a b : Py.slice_to (a ++ b) (Py.len a) = a.
Proof.
  unfold Py.slice_to. rewrite slice_inside.
  - unfold Py.len. rewrite Z.sub_0_r, Nat2Z.id.
    change (Z.to_nat 0) with 0%nat. rewrite drop_0.
    by rewrite take_app_length.
  - unfold Py.len. lia.
  - unfold Py.len. rewrite length_app. lia.
Qed.

Lemma slice_app3 a b c :
  Py.slice (a ++ b ++ c) (Py.len a) (Py.len a + Py.len b) = b.
Proof.
  rewrite slice_inside.
  - unfold Py.len. rewrite Nat2Z.id, drop_app_length.
    replace (Z.to_nat _) with (length b) by lia.
    by rewrite take_app_length.
  - unfold Py.len. lia.
  - unfold Py.len. rewrite !length_app. lia.
Qed.

Lemma slice_to_take s n : 0 <= n -> Py.slice_to s n = take (Z.to_nat n) s.
Proof.
  intros Hn. unfold Py.slice_to, Py.slice, Py.bound.
  change (0 <? 0) with false. cbv iota.
  destruct (Z.ltb_spec n 0); [lia|].
  assert (0 <= Py.len s) by (unfold Py.len; lia).
  rewrite (Z.min_l 0) by lia. rewrite Z.sub_0_r. simpl.
  destruct (Z.min_spec n (Py.len s)) as [[? ->]|[? ->]]; [done|].
  unfold Py.len in *. rewrite Nat2Z.id.
  rewrite (take_ge s (Z.to_nat n)) by lia. by rewrite take_ge.
Qed.

Lemma slice_take_drop s lo hi :
  0 <= lo <= hi ->
  Py.slice s lo hi = take (Z.to_nat (hi - lo)) (drop (Z.to_nat lo) s).
Proof.
  intros H. unfold Py.slice, Py.bound.
  destruct (Z.ltb_spec lo 0); [lia|].
  destruct (Z.ltb_spec hi 0); [lia|].
  assert (0 <= Py.len s) by (unfold Py.len; lia).
  destruct (Z.le_gt_cases hi (Py.len s)).
  - by rewrite !Z.min_l by lia.
  - rewrite (Z.min_r hi) by lia.
    destruct (Z.le_gt_cases lo (Py.len s)).
    + rewrite (Z.min_l lo) by lia. unfold Py.len in *.
      rewrite !take_ge; [done|rewrite length_drop; lia..].
    + rewrite (Z.min_r lo) by lia. unfold Py.len in *.
      rewrite !drop_ge by lia. by rewrite !take_nil.
Qed.

End strings.

(** ** The command parser *)

(** Decidable side conditions on concrete data. *)
Ltac decide_by_compute :=
  match goal with
  | |- ?P => apply (bool_decide_unpack P); vm_compute; exact I
  end.

Ltac refute_by_compute H :=
  apply (bool_decide_pack _) in H; vm_compute in H; destruct H.

Section parser.
Implicit Types (line s a b c : str).

Local Notation "'LP'" := ("("%char).
Local Notation "'RP'" := (")"%char).
Local Notation "'COMMA'" := (","%char).

Lemma parse_call_unfold line :
  _parse_call line =
    let s := Py.strip line in
    match s with
    | [] => None
    | _ =>
        let l := Py.find LP s in
        let r := Py.rfind RP s in
        if (l <=? 0) || (r <=? l) then None
        else Some (Py.strip (Py.slice_to s l), Py.strip (Py.slice s (l + 1) r))
    end.
Proof. by destruct line. Qed.

Lemma notin_lstrip x s : x ∉ s -> x ∉ Py.lstrip s.
Proof.
  destruct (lstrip_suffix s) as (w & E & _). rewrite E at 1.
  rewrite not_elem_of_app. tauto.
Qed.

Lemma notin_rstrip x s : x ∉ s -> x ∉ Py.rstrip s.
Proof.
  destruct (rstrip_prefix s) as (w & E & _). rewrite E at 1.
  rewrite not_elem_of_app. tauto.
Qed.

(** A line without an opening parenthesis is not a call. *)
Lemma parse_call_no_open line : LP ∉ line -> _parse_call line = None.
Proof.
  intros Hn. rewrite parse_call_unfold. cbv zeta.
  destruct (Py.strip line) as [|x s] eqn:E; [done|].
  unfold Py.find. rewrite find_from_notin; [done|].
  rewrite <- E. by rewrite elem_of_strip.
Qed.

(** Nor is a line without a closing parenthesis after the first opening
    one. *)
Lemma parse_call_no_close a b :
  LP ∉ a -> RP ∉ b -> _parse_call (a ++ LP :: b) = None.
Proof.
  intros Ha Hb. rewrite parse_call_unfold. cbv zeta.
  assert (Py.strip (a ++ LP :: b) = Py.lstrip a ++ LP :: Py.rstrip b) as ->.
  { unfold Py.strip. rewrite lstrip_app_nonspace by done.
    by rewrite rstrip_app_nonspace. }
  destruct (Py.lstrip a ++ LP :: Py.rstrip b) eqn:E.
  { by destruct (Py.lstrip a). }
  rewrite <- E. unfold Py.find, Py.rfind.
  rewrite find_from_app by by apply notin_lstrip.
  rewrite rfind_from_app_gen. simpl.
  rewrite rfind_from_notin by by apply notin_rstrip.
  pose proof (rfind_from_bound RP (Py.lstrip a) 0 (-1)).
  destruct (Z.leb_spec (0 + Py.len (Py.lstrip a)) 0); [done|].
  destruct (Z.leb_spec (Py.rfind_from RP (Py.lstrip a) 0 (-1))
                       (0 + Py.len (Py.lstrip a))); [done|lia].
Qed.

(** The result on a line of the shape [a(b)c]. *)
Lemma parse_call_shape a b c :
  LP ∉ a -> RP ∉ c ->
  _parse_call (a ++ LP :: b ++ RP :: c) =
    if decide (blank a) then None else Some (Py.strip a, Py.strip b).
Proof.
  intros Ha Hc. rewrite parse_call_unfold. cbv zeta.
  set (A := Py.lstrip a).
  assert (Py.strip (a ++ LP :: b ++ RP :: c)
          = (A ++ [LP]) ++ b ++ RP :: Py.rstrip c) as ->.
  { unfold Py.strip. rewrite lstrip_app_nonspace by done.
    replace (Py.lstrip a ++ LP :: b ++ RP :: c)
      with ((Py.lstrip a ++ LP :: b) ++ RP :: c)
      by (by rewrite <- app_assoc).
    rewrite rstrip_app_nonspace by done.
    subst A. by rewrite <- !app_assoc. }
  destruct ((A ++ [LP]) ++ b ++ RP :: Py.rstrip c) eqn:E.
  { by destruct A. }
  rewrite <- E. clear E.
  assert (Py.find LP ((A ++ [LP]) ++ b ++ RP :: Py.rstrip c) = Py.len A) as ->.
  { unfold Py.find. rewrite <- app_assoc. simpl.
    rewrite find_from_app by by apply notin_lstrip. lia. }
  assert (Py.rfind RP ((A ++ [LP]) ++ b ++ RP :: Py.rstrip c)
          = Py.len A + 1 + Py.len b) as ->.
  { unfold Py.rfind. rewrite app_assoc.
    rewrite rfind_from_app by by apply notin_rstrip.
    unfold Py.len. rewrite !length_app. simpl. lia. }
  assert (0 <= Py.len b) by (unfold Py.len; lia).
  destruct (decide (blank a)) as [Hb|Hb].
  - subst A. rewrite (lstrip_blank a Hb). done.
  - assert (0 < Py.len A).
    { subst A. destruct (Py.lstrip a) eqn:E.
      - by apply lstrip_nil in E.
      - unfold Py.len. simpl. lia. }
    destruct (Z.leb_spec (Py.len A) 0); [lia|].
    destruct (Z.leb_spec (Py.len A + 1 + Py.len b) (Py.len A)); [lia|].
    simpl. f_equal. f_equal.
    + rewrite <- (app_assoc A). rewrite slice_to_app.
      subst A. apply strip_lstrip.
    + replace (Py.len A + 1) with (Py.len (A ++ [LP]))
        by (unfold Py.len; rewrite length_app; simpl; lia).
      by rewrite slice_app3.
Qed.

(** Against C5 as stated.  The raw argument string is what stands between
    the parentheses without its surrounding whitespace: the parser does not
    return the text between the parentheses as it is. *)
Lemma parse_call_args_raw_cex :
  let line := lit "f( a )" in
  line = lit "f" ++ LP :: lit " a " ++ RP :: [] /\
  _parse_call line = Some (lit "f", lit "a") /\
  _parse_call line <> Some (Py.strip (lit "f"), lit " a ").
Proof. vm_compute. split; [done|]. split; [done|]. discriminate. Qed.

(** C5 (amended).  For every line: the parser fails exactly when the line is
    empty or blank, has no opening parenthesis, has the opening parenthesis
    as its first non-blank character, or has no closing parenthesis after
    the first opening one; otherwise it returns the stripped text before
    the first opening parenthesis and the stripped text between the first
    opening and the last closing parenthesis; text after the last closing
    parenthesis does not affect the result. *)
Theorem parse_call_spec line :
  (_parse_call line = None <->
     blank line \/ LP ∉ line \/ (exists r, Py.lstrip line = LP :: r) \/
     (forall a b, line = a ++ LP :: b -> LP ∉ a -> RP ∉ b))
  /\ (forall a b c,
        line = a ++ LP :: b ++ RP :: c -> LP ∉ a -> RP ∉ c ->
        _parse_call line <> None ->
        _parse_call line = Some (Py.strip a, Py.strip b))
  /\ (forall a c c',
        line = a ++ RP :: c -> RP ∉ c -> RP ∉ c' ->
        _parse_call (a ++ RP :: c') = _parse_call line).
Proof.
  split; [|split].
  - destruct (decide (LP ∈ line)) as [Hin|Hn].
    2:{ split; [tauto|]. intros _. by apply parse_call_no_open. }
    apply list_elem_of_split_l in Hin as (a & b & -> & Ha).
    destruct (decide (RP ∈ b)) as [Hin|Hn].
    2:{ split; [|intros _; by apply parse_call_no_close].
        intros _. right. right. right. intros a' b' E Ha'.
        apply not_elem_of_app_cons_inv_l in E as (? & _ & ?); [by subst|done..]. }
    apply list_elem_of_split_r in Hin as (b1 & c & -> & Hc).
    rewrite parse_call_shape by done.
    destruct (decide (blank a)) as [Hb|Hb].
    + split; [|done]. intros _. right. right. left.
      exists (b1 ++ RP :: c). rewrite lstrip_app_nonspace by done.
      by rewrite (lstrip_blank a).
    + split; [done|]. intros [H|[H|[[r H]|H]]]; exfalso.
      * apply blank_app in H as [_ H]. inversion H; subst. done.
      * apply H. rewrite elem_of_app, elem_of_cons. tauto.
      * rewrite lstrip_app_nonspace in H by done.
        destruct (Py.lstrip a) as [|x A] eqn:E.
        -- by apply Hb, lstrip_nil.
        -- simplify_eq/=. apply (notin_lstrip LP a Ha).
           rewrite E. by left.
      * apply (H a (b1 ++ RP :: c) eq_refl Ha).
        rewrite elem_of_app, elem_of_cons. tauto.
  - intros a b c -> Ha Hc. rewrite parse_call_shape by done.
    by destruct (decide (blank a)).
  - intros a c c' -> Hc Hc'.
    destruct (decide (LP ∈ a)) as [Hin|Hn].
    + apply list_elem_of_split_l in Hin as (a1 & b & -> & Ha).
      rewrite <- !app_assoc. simpl.
      by rewrite !parse_call_shape.
    + assert (forall t, RP ∉ t -> _parse_call (a ++ RP :: t) = None) as Hnone.
      { intros t Ht. destruct (decide (LP ∈ t)) as [Hin|Hnt].
        - apply list_elem_of_split_l in Hin as (t1 & t2 & -> & Ht1).
          replace (a ++ RP :: t1 ++ LP :: t2)
            with ((a ++ RP :: t1) ++ LP :: t2) by (by rewrite <- app_assoc).
          apply parse_call_no_close.
          + rewrite not_elem_of_app, not_elem_of_cons. done.
          + rewrite not_elem_of_app, not_elem_of_cons in Ht. tauto.
        - apply parse_call_no_open.
          rewrite not_elem_of_app, not_elem_of_cons. done. }
      by rewrite !Hnone.
Qed.

(** [pinMode(16, OUTPUT) ; junk] parses as [pinMode(16, OUTPUT)]. *)
Lemma parse_call_spec_witness :
  _parse_call (lit "pinMode" ++ LP :: lit " 16, OUTPUT " ++ RP :: lit " ; junk")
  = Some (lit "pinMode", lit "16, OUTPUT").
Proof.
  destruct (parse_call_spec
              (lit "pinMode" ++ LP :: lit " 16, OUTPUT " ++ RP :: lit " ; junk"))
    as (_ & H & _).
  apply (H (lit "pinMode") (lit " 16, OUTPUT ") (lit " ; junk")).
  - reflexivity.
  - decide_by_compute.
  - decide_by_compute.
  - vm_compute. discriminate.
Defined.

(** *** Argument splitting *)

Lemma split_notin x m s : x ∉ s -> Py.split x m s = [s].
Proof.
  revert m. induction s as [|y s IH]; intros m Hn.
  - by destruct m as [[]|].
  - apply not_elem_of_cons in Hn as [Hne Hn].
    destruct m as [[|n]|]; [done|..]; simpl;
      (destruct (Ascii.eqb_spec y x); [congruence|]); by rewrite IH.
Qed.

Lemma split_None_app x a r :
  x ∉ a -> Py.split x None (a ++ x :: r) = a :: Py.split x None r.
Proof.
  induction a as [|y a IH]; intros Hn; simpl.
  - by rewrite Ascii.eqb_refl.
  - apply not_elem_of_cons in Hn as [Hne Hn].
    destruct (Ascii.eqb_spec y x); [congruence|]. by rewrite IH.
Qed.

Lemma split_1_app x a b :
  x ∉ a -> Py.split x (Some 1%nat) (a ++ x :: b) = [a; b].
Proof.
  induction a as [|y a IH]; intros Hn; simpl.
  - rewrite Ascii.eqb_refl. by destruct b.
  - apply not_elem_of_cons in Hn as [Hne Hn].
    destruct (Ascii.eqb_spec y x); [congruence|]. by rewrite IH.
Qed.

Lemma split_None_join x pieces :
  pieces <> [] -> Forall (fun p => x ∉ p) pieces ->
  Py.split x None (join x pieces) = pieces.
Proof.
  intros Hne H. induction H as [|p ps Hp Hps IH]; [done|].
  destruct ps as [|q ps].
  - simpl. by apply split_notin.
  - change (join x (p :: q :: ps)) with (p ++ x :: join x (q :: ps)).
    rewrite split_None_app by done. by rewrite IH.
Qed.

Lemma join_split_None x s :
  join x (Py.split x None s) = s /\ Forall (fun p => x ∉ p) (Py.split x None s)
  /\ Py.split x None s <> [].
Proof.
  induction s as [|y s (IH1 & IH2 & IH3)]; simpl.
  - repeat split; [|done]. repeat constructor. by intros ?%elem_of_nil.
  - destruct (Ascii.eqb_spec y x) as [->|Hne].
    + repeat split; [|by constructor; [intros ?%elem_of_nil|]|done].
      destruct (Py.split x None s); [done|]. simpl. by rewrite <- IH1.
    + destruct (Py.split x None s) as [|p ps]; [done|].
      repeat split; [|inversion IH2; subst; constructor;
                       [rewrite not_elem_of_cons; split; [congruence|done]|done]
                     |done].
      rewrite <- IH1. by destruct ps.
Qed.

Lemma map_strip_filter (parts : list str) :
  map Py.strip (filter (fun p => Py.strip p <> []) parts)
  = filter (fun p => p <> []) (map Py.strip parts).
Proof.
  induction parts as [|p ps IH]; [done|]. simpl.
  rewrite !filter_cons. destruct (decide (Py.strip p <> [])); simpl; by rewrite IH.
Qed.

Lemma split_args_default s :
  _split_args s (-1)
  = filter (fun p => p <> []) (map Py.strip (Py.split COMMA None s)).
Proof.
  unfold _split_args. destruct s as [|x s]; [done|].
  change (-1 =? 1) with false. cbv iota. apply map_strip_filter.
Qed.

Lemma split_args_first s :
  _split_args s 1
  = filter (fun p => p <> []) (map Py.strip (Py.split COMMA (Some 1%nat) s)).
Proof.
  unfold _split_args. destruct s as [|x s]; [done|].
  change (1 =? 1) with true. cbv iota. apply map_strip_filter.
Qed.

(** C6.  For every raw argument string: the default split gives the
    comma-separated pieces, each trimmed, the empty ones dropped; the
    split on the first comma gives at most two pieces, the trimmed text
    before the first comma and the trimmed text after it with its commas,
    each dropped when empty. *)
Theorem split_args_spec (args_str : str) :
  (exists pieces,
      join COMMA pieces = args_str /\ Forall (fun p => COMMA ∉ p) pieces /\
      _split_args args_str (-1)
      = filter (fun p => p <> []) (map Py.strip pieces))
  /\ (forall pieces,
        pieces <> [] -> Forall (fun p => COMMA ∉ p) pieces ->
        args_str = join COMMA pieces ->
        _split_args args_str (-1)
        = filter (fun p => p <> []) (map Py.strip pieces))
  /\ (length (_split_args args_str 1) <= 2)%nat
  /\ (COMMA ∉ args_str ->
      _split_args args_str 1 = filter (fun p => p <> []) [Py.strip args_str])
  /\ (forall a b,
        args_str = a ++ COMMA :: b -> COMMA ∉ a ->
        _split_args args_str 1
        = filter (fun p => p <> []) [Py.strip a; Py.strip b]).
Proof.
  assert (COMMA ∉ args_str ->
          _split_args args_str 1 = filter (fun p => p <> []) [Py.strip args_str])
    as Hno.
  { intros Hn. rewrite split_args_first. by rewrite split_notin. }
  assert (forall a b, args_str = a ++ COMMA :: b -> COMMA ∉ a ->
            _split_args args_str 1
            = filter (fun p => p <> []) [Py.strip a; Py.strip b]) as Hyes.
  { intros a b -> Ha. rewrite split_args_first. by rewrite split_1_app. }
  split; [|split; [|split; [|split]]]; [| | |exact Hno|exact Hyes].
  - exists (Py.split COMMA None args_str).
    destruct (join_split_None COMMA args_str) as (? & ? & _).
    split; [done|]. split; [done|]. apply split_args_default.
  - intros pieces Hne Hp ->. rewrite split_args_default.
    by rewrite split_None_join.
  - destruct (decide (COMMA ∈ args_str)) as [Hin|Hn].
    + apply list_elem_of_split_l in Hin as (a & b & E & Ha).
      rewrite (Hyes a b E Ha).
      etrans; [apply length_filter|]. done.
    + rewrite (Hno Hn). etrans; [apply length_filter|]. simpl. lia.
Qed.

(** [setText(0, Hello, world)]: the embedded comma stays in the text. *)
Lemma split_args_spec_witness :
  _split_args (lit "0" ++ COMMA :: lit " Hello, world") 1
  = filter (fun p => p <> []) [Py.strip (lit "0"); Py.strip (lit " Hello, world")].
Proof.
  destruct (split_args_spec (lit "0" ++ COMMA :: lit " Hello, world"))
    as (_ & _ & _ & _ & H).
  apply (H (lit "0") (lit " Hello, world")).
  - reflexivity.
  - decide_by_compute.
Defined.

End parser.

(** ** The display adapter *)

Section display.
Implicit Types (w : World) (env : Env) (k key : str).

Lemma lcd_do_spec k op w log :
  _LCD_CACHE w !! k = Some log ->
  exists w', lcd_do k op w = (Ret tt, w') /\
             _LCD_CACHE w' !! k = Some (log ++ [op]) /\
             LCD1602 w' = LCD1602 w.
Proof.
  intros H. eexists. split; [reflexivity|]. split; [|done].
  simpl. by rewrite lookup_alter_eq, H.
Qed.

Lemma bus_key_cases bus key :
  bus_key bus = Some key ->
  (key = lit "i2c0" \/ key = lit "i2c1") /\ Py.lower key = key /\
  key ∈ I2C_BUSES /\ bus_key key = Some key.
Proof.
  intros H. unfold bus_key in H at 1.
  repeat case_bool_decide; simplify_eq.
  - split; [by left|]. split; [by vm_compute|].
    split; [decide_by_compute|by vm_compute].
  - split; [by right|]. split; [by vm_compute|].
    split; [decide_by_compute|by vm_compute].
Qed.

(** The display object of a bus: taken from the cache, or made on first
    use when the driver is there. *)
Lemma get_lcd_spec key w :
  Py.lower key = key -> key ∈ I2C_BUSES ->
  is_Some (_LCD_CACHE w !! key) \/ is_Some (LCD1602 w) ->
  exists w', _get_lcd key w = (Ret key, w') /\
             _LCD_CACHE w' !! key = Some (default [] (_LCD_CACHE w !! key)) /\
             LCD1602 w' = LCD1602 w.
Proof.
  intros Hl Hb Hav. unfold _get_lcd. rewrite Hl.
  case_bool_decide as Hc.
  - destruct Hc as [log Hc]. exists w. by rewrite Hc.
  - destruct Hav as [?|[cls Hd]]; [done|]. rewrite Hd.
    rewrite bool_decide_eq_true_2 by done.
    eexists. split; [reflexivity|]. simpl.
    rewrite lookup_insert_eq.
    by destruct (_LCD_CACHE w !! key) eqn:E; [destruct Hc; eauto|].
Qed.

Lemma replace_unbreak s :
  Py.replace LF SP (Py.replace CR SP s) = map unbreak s.
Proof.
  unfold Py.replace. rewrite map_map. apply map_ext. intros c.
  unfold unbreak. destruct (Ascii.eqb_spec c CR) as [->|H1].
  - by rewrite bool_decide_eq_true_2 by tauto.
  - destruct (Ascii.eqb_spec c LF) as [->|H2].
    + by rewrite bool_decide_eq_true_2 by tauto.
    + by rewrite bool_decide_eq_false_2 by tauto.
Qed.

Lemma write_lcd_lines text :
  let t := Py.slice_to (Py.replace LF SP (Py.replace CR SP (Py.strip text))) 32 in
  Py.slice_to t 16 = take 16 (shown text) /\
  Py.slice t 16 32 = drop 16 (shown text).
Proof.
  cbv zeta. rewrite replace_unbreak, !slice_to_take by lia.
  change (Z.to_nat 32) with 32%nat. change (Z.to_nat 16) with 16%nat.
  fold (shown text). split; [done|].
  rewrite slice_take_drop by lia.
  change (Z.to_nat (32 - 16)) with 16%nat. change (Z.to_nat 16) with 16%nat.
  apply take_ge. rewrite length_drop. unfold shown. rewrite length_take. lia.
Qed.

Lemma write_lcd_spec env key text w :
  Py.lower key = key -> key ∈ I2C_BUSES ->
  is_Some (_LCD_CACHE w !! key) \/ is_Some (LCD1602 w) ->
  exists w',
    write_lcd env key text w = (Ret tt, w') /\
    _LCD_CACHE w' !! key =
      Some (default [] (_LCD_CACHE w !! key)
            ++ (if lcd_clear_raises env then [] else [lcd_clear])
            ++ [lcd_home; lcd_print (take 16 (shown text))]
            ++ match drop 16 (shown text) with
               | [] => []
               | _ => [lcd_setCursor 0 1; lcd_print (drop 16 (shown text))]
               end).
Proof.
  intros Hl Hb Hav.
  destruct (get_lcd_spec key w Hl Hb Hav) as (w1 & Hget & Hlog1 & _).
  destruct (write_lcd_lines text) as [L1 L2]. cbv zeta in L1, L2.
  unfold write_lcd, bind. rewrite Hget, L1, L2. clear Hget L1 L2.
  set (old := default [] (_LCD_CACHE w !! key)) in *.
  assert (exists w2,
    try_except
      (if lcd_clear_raises env then raise (OSError "clear")
       else lcd_do key lcd_clear) (fun _ => ret tt) w1 = (Ret tt, w2) /\
    _LCD_CACHE w2 !! key
    = Some (old ++ if lcd_clear_raises env then [] else [lcd_clear]))
    as (w2 & -> & Hlog2).
  { unfold try_except. destruct (lcd_clear_raises env).
    - exists w1. by rewrite app_nil_r.
    - destruct (lcd_do_spec key lcd_clear w1 old Hlog1) as (w2 & -> & ? & _).
      by exists w2. }
  destruct (lcd_do_spec key lcd_home w2 _ Hlog2) as (w3 & -> & Hlog3 & _).
  destruct (lcd_do_spec key (lcd_print (take 16 (shown text))) w3 _ Hlog3)
    as (w4 & -> & Hlog4 & _).
  destruct (drop 16 (shown text)) as [|c line2] eqn:E2.
  - exists w4. split; [done|]. rewrite Hlog4. f_equal.
    rewrite <- !app_assoc. by rewrite app_nil_r.
  - destruct (lcd_do_spec key (lcd_setCursor 0 1) w4 _ Hlog4)
      as (w5 & -> & Hlog5 & _).
    destruct (lcd_do_spec key (lcd_print (c :: line2)) w5 _ Hlog5)
      as (w6 & -> & Hlog6 & _).
    exists w6. split; [done|]. rewrite Hlog6. f_equal.
    by rewrite <- !app_assoc.
Qed.

(** C7.  On a recognized bus whose display object exists or can be made,
    [setText] succeeds and sends the display: a clear, skipped when the
    clear fails; home; the first 16 characters of the text trimmed, with
    carriage returns and line feeds turned into spaces, cut after 32
    characters; and, when there are more, a move to the second line and
    the characters 17 to 32.  The printed lines are not padded. *)
Theorem setText_renders env w bus key text :
  bus_key bus = Some key ->
  is_Some (_LCD_CACHE w !! key) \/ is_Some (LCD1602 w) ->
  let t := take 32 (map unbreak (Py.strip text)) in
  let line1 := take 16 t in
  let line2 := drop 16 t in
  exists w',
    setText env bus text w = (Ret tt, w') /\
    _LCD_CACHE w' !! key =
      Some (default [] (_LCD_CACHE w !! key)
            ++ (if lcd_clear_raises env then [] else [lcd_clear])
            ++ [lcd_home; lcd_print line1]
            ++ match line2 with
               | [] => []
               | _ => [lcd_setCursor 0 1; lcd_print line2]
               end) /\
    line1 ++ line2 = t /\
    (length t <= 32)%nat /\ (length line1 <= 16)%nat /\
    (length line2 <= 16)%nat.
Proof.
  intros Hk Hav. cbv zeta. fold (shown text).
  destruct (bus_key_cases bus key Hk) as (_ & Hl & Hb & _).
  destruct (write_lcd_spec env key text w Hl Hb Hav) as (w' & Hw & Hlog).
  exists w'. unfold setText. rewrite Hk.
  split; [done|]. split; [done|]. split; [apply take_drop|].
  assert (length (shown text) <= 32)%nat
    by (unfold shown; rewrite length_take; lia).
  rewrite length_take, length_drop. lia.
Qed.

(** A 40-character text with a line feed inside, the clear failing. *)
Lemma setText_renders_witness :
  exists w',
    setText (mkEnv (fun _ => false) (fun _ => 0) (fun _ => 0) (fun _ => None)
                   (fun _ => true) (fun _ _ => None) true 24 (fun _ => []))
            (lit "I2C0") (lit "  abcdefghijklmnop" ++ LF :: lit "rstuvwxyz0123456789ABCD ")
            w0
    = (Ret tt, w') /\
    _LCD_CACHE w' !! lit "i2c0"
    = Some [lcd_home; lcd_print (lit "abcdefghijklmnop");
            lcd_setCursor 0 1; lcd_print (lit " rstuvwxyz012345")].
Proof.
  destruct (setText_renders
    (mkEnv (fun _ => false) (fun _ => 0) (fun _ => 0) (fun _ => None)
           (fun _ => true) (fun _ _ => None) true 24 (fun _ => []))
    w0 (lit "I2C0") (lit "i2c0")
    (lit "  abcdefghijklmnop" ++ LF :: lit "rstuvwxyz0123456789ABCD "))
    as (w' & H1 & H2 & _).
  - reflexivity.
  - right. by exists (mkLcdClass true).
  - exists w'. split; [exact H1|]. rewrite H2. reflexivity.
Defined.

End display.

(** ** Digital and PWM access *)

Section pins.
Implicit Types (w : World) (env : Env) (P v : Z).

Lemma digital_pin_Some P w p :
  DIGITAL_PINS w !! P = Some p -> digital_pin P w = (Ret p, w).
Proof. intros H. unfold digital_pin. by rewrite H. Qed.

Lemma digital_pin_None P w :
  DIGITAL_PINS w !! P = None ->
  digital_pin P w = (Raise (KeyError "UNKNOWN_DIGITAL_PIN"), w).
Proof. intros H. unfold digital_pin. by rewrite H. Qed.

(** The pins the firmware declares are the recognized ones at start-up. *)
Lemma boot_digital_pins driver P :
  is_Some (DIGITAL_PINS (boot driver) !! P) <-> P = 16 \/ P = 18 \/ P = 20.
Proof.
  split.
  - intros H. destruct (decide (P = 16)), (decide (P = 18)), (decide (P = 20));
      auto.
    simpl in H. rewrite !lookup_insert_ne, lookup_empty in H by done.
    by destruct H.
  - intros [H|[H|H]]; subst P; by eexists.
Qed.

(** The level token of [digitalWrite]. *)
Lemma digitalWrite_spec env P token w p v :
  DIGITAL_PINS w !! P = Some p ->
  (Py.lower token = lit "high" /\ v = 1) \/ (Py.lower token = lit "low" /\ v = 0) ->
  pin_init_raises env P = false ->
  digitalWrite env P token w
  = (Ret tt, with_pins (alter (fun _ => mkPin Pin_OUT v) P) w).
Proof.
  intros Hp Htok Hinit. unfold digitalWrite, bind.
  rewrite (digital_pin_Some _ _ _ Hp).
  assert ((if bool_decide (Py.lower token = lit "high") then ret 1
           else if bool_decide (Py.lower token = lit "low") then ret 0
           else raise (ValueError "UNKNOWN_LEVEL")) w = (Ret v, w)) as ->.
  { destruct Htok as [[-> ->]|[-> ->]]; done. }
  unfold try_except, Pin_init. rewrite Hinit. done.
Qed.

Lemma digitalRead_spec env P w p :
  DIGITAL_PINS w !! P = Some p ->
  pin_init_raises env P = false ->
  digitalRead env P w
  = (Ret (if pin_level env P =? 0 then 0 else 1),
     with_pins (alter (fun p => mkPin Pin_IN (pin_out p)) P) w).
Proof.
  intros Hp Hinit. unfold digitalRead, bind.
  rewrite (digital_pin_Some _ _ _ Hp).
  unfold try_except, Pin_init. rewrite Hinit. simpl.
  by rewrite lookup_alter_eq, Hp.
Qed.

(** Against C8 as stated.  With the line low, [digitalRead] after
    [digitalWrite(16, HIGH)] answers [0]: the pin was turned into an input
    before it was sampled. *)
Lemma digitalWrite_digitalRead_cex :
  is_Some (DIGITAL_PINS w0 !! 16) /\
  ((digitalWrite env0 16 (lit "HIGH") ;;; digitalRead env0 16) w0).1 = Ret 0 /\
  response env0 (lit "digitalRead(16)")
    (handle_command env0 (lit "digitalWrite(16, HIGH)") w0) = lit "0" ++ [LF].
Proof. split; [by apply boot_digital_pins; left|]. by vm_compute. Qed.

(** C8 (amended).  On a recognized digital pin whose [Pin.init] succeeds,
    [digitalWrite] with the token [high] or [low] in any case succeeds and
    leaves the pin an output driving 1 or 0; [digitalRead] after it turns
    the pin into an input and answers 1 when the level then present on the
    pin is high and 0 when it is low; it answers the written level when the
    pin carries that level. *)
Theorem digitalWrite_then_digitalRead env1 env2 w P token v :
  is_Some (DIGITAL_PINS w !! P) ->
  (Py.lower token = lit "high" /\ v = 1) \/ (Py.lower token = lit "low" /\ v = 0) ->
  pin_init_raises env1 P = false ->
  pin_init_raises env2 P = false ->
  exists w1 w2,
    digitalWrite env1 P token w = (Ret tt, w1) /\
    DIGITAL_PINS w1 !! P = Some (mkPin Pin_OUT v) /\
    digitalRead env2 P w1
    = (Ret (if pin_level env2 P =? 0 then 0 else 1), w2) /\
    DIGITAL_PINS w2 !! P = Some (mkPin Pin_IN v) /\
    (pin_level env2 P = v -> (digitalRead env2 P w1).1 = Ret v).
Proof.
  intros [p Hp] Htok H1 H2.
  rewrite (digitalWrite_spec env1 P token w p v Hp Htok H1).
  eexists. eexists. split; [reflexivity|].
  assert (DIGITAL_PINS (with_pins (alter (fun _ => mkPin Pin_OUT v) P) w) !! P
          = Some (mkPin Pin_OUT v)) as Hp1.
  { simpl. by rewrite lookup_alter_eq, Hp. }
  split; [exact Hp1|].
  rewrite (digitalRead_spec env2 P _ _ Hp1 H2).
  split; [reflexivity|]. split.
  - simpl. by rewrite !lookup_alter_eq, Hp.
  - intros ->. simpl. by destruct Htok as [[_ ->]|[_ ->]].
Qed.

(** [digitalWrite(18, High)] then [digitalRead(18)] with the line high. *)
Lemma digitalWrite_then_digitalRead_witness :
  exists w1 w2,
    digitalWrite env0 18 (lit "High") w0 = (Ret tt, w1) /\
    digitalRead (mkEnv (fun _ => false) (fun _ => 1) (fun _ => 0)
                       (fun _ => None) (fun _ => true) (fun _ _ => None)
                       false 24 (fun _ => [])) 18 w1
    = (Ret 1, w2).
Proof.
  destruct (digitalWrite_then_digitalRead env0
              (mkEnv (fun _ => false) (fun _ => 1) (fun _ => 0)
                     (fun _ => None) (fun _ => true) (fun _ _ => None)
                     false 24 (fun _ => []))
              w0 18 (lit "High") 1)
    as (w1 & w2 & H1 & _ & H2 & _).
  - apply boot_digital_pins. right. by left.
  - left. split; reflexivity.
  - reflexivity.
  - reflexivity.
  - exists w1, w2. split; [exact H1|exact H2].
Defined.

(** *** PWM *)

(** [v] brought into [0 .. 255]. *)
Lemma analogWrite_clamp_eq v :
  (let v1 := if v <? 0 then 0 else v in if 255 <? v1 then 255 else v1)
  = Z.max 0 (Z.min v 255).
Proof.
  cbv zeta. destruct (Z.ltb_spec v 0).
  - destruct (Z.ltb_spec 255 0); lia.
  - destruct (Z.ltb_spec 255 v); lia.
Qed.

Lemma analogWrite_spec env P v w p :
  DIGITAL_PINS w !! P = Some p ->
  analogWrite env P v w
  = (Ret tt,
     with_pwm (fun cache =>
       alter (fun c => mkPWM (pwm_freq c) (Z.max 0 (Z.min v 255) * 257)) P
         (match cache !! P with
          | None => <[P := mkPWM 1000 0]> cache
          | Some _ => cache
          end)) w).
Proof.
  intros Hp. unfold analogWrite, bind.
  rewrite (digital_pin_Some _ _ _ Hp). unfold gets.
  pose proof (analogWrite_clamp_eq v) as Hc. cbv zeta in Hc. rewrite Hc.
  destruct (_PWM_CACHE w !! P) eqn:E; unfold modify, ret; simpl.
  all: unfold with_pwm; simpl; by rewrite ?E.
Qed.

(** C4.  On a recognized digital pin, [analogWrite] never raises, whatever
    the value; the duty of the pin's PWM channel becomes 257 times the
    value clamped into 0 .. 255, the channel being made at 1 kHz on first
    use and kept afterwards; and writing a value is the same, in result and
    in state, as writing the clamped value. *)
Theorem analogWrite_clamps env w P v :
  is_Some (DIGITAL_PINS w !! P) ->
  let c := Z.max 0 (Z.min v 255) in
  exists w',
    analogWrite env P v w = (Ret tt, w') /\
    _PWM_CACHE w' !! P
    = Some (mkPWM (default 1000 (pwm_freq <$> _PWM_CACHE w !! P)) (257 * c)) /\
    analogWrite env P c w = analogWrite env P v w /\
    0 <= 257 * c <= 65535.
Proof.
  intros [p Hp] c. rewrite !(analogWrite_spec _ _ _ _ _ Hp).
  eexists. split; [reflexivity|]. split; [|split].
  - simpl. rewrite lookup_alter_eq. fold c.
    destruct (_PWM_CACHE w !! P) as [q|] eqn:E.
    + rewrite E. simpl. f_equal. f_equal. lia.
    + rewrite lookup_insert_eq. simpl. f_equal. f_equal. lia.
  - replace (Z.max 0 (Z.min c 255)) with c by (subst c; lia). done.
  - subst c. lia.
Qed.

(** [analogWrite(16, 500)] is [analogWrite(16, 255)]: full duty. *)
Lemma analogWrite_clamps_witness :
  exists w',
    analogWrite env0 16 500 w0 = (Ret tt, w') /\
    _PWM_CACHE w' !! 16 = Some (mkPWM 1000 65535) /\
    analogWrite env0 16 255 w0 = analogWrite env0 16 500 w0.
Proof.
  destruct (analogWrite_clamps env0 w0 16 500) as (w' & H1 & H2 & H3 & _).
  - apply boot_digital_pins. by left.
  - exists w'. split; [exact H1|]. split; [exact H2|exact H3].
Defined.

End pins.

(** ** The sensor adapter *)

(** Case analysis on the innermost test of a computation. *)
Ltac case_inner :=
  match goal with
  | |- context [match ?x with _ => _ end] =>
      lazymatch x with
      | context [match _ with _ => _ end] => fail
      | _ => destruct x eqn:?
      end
  end.

Ltac unfold_adapters :=
  unfold invoke, pinMode, digitalWrite, digitalRead, analogRead, analogWrite,
    ultrasonicRead, setText, setRGB, write_lcd, _get_lcd, dhtRead,
    digital_pin, Pin_init, Pin_set, Pin_get, Pin_new_IN, lcd_do,
    bind, try_except, modify, gets, ret, raise.

Ltac run_adapter := unfold_adapters; repeat (simpl; case_inner); simpl.

Section sensor.
Implicit Types (w : World) (env : Env) (pin mt : Z) (th : Q * Q).

(** [dhtRead], case by case. *)
Lemma dhtRead_cases env pin mt w :
  dhtRead env pin mt w =
    if gpio_exists env pin then
      let w1 := with_pins (alter (fun p => mkPin Pin_IN (pin_out p)) pin) w in
      if (mt =? 0) || (mt =? 1) then
        match dht_measure env pin mt with
        | Some th => (Ret th, with_dht (insert (pin, mt) th) w1)
        | None =>
            match _DHT_CACHE w !! (pin, mt) with
            | Some th => (Ret th, w1)
            | None => (Raise (OSError "measure"), w1)
            end
        end
      else (Raise (ValueError "UNKNOWN_DHT_MODULE_TYPE"), w1)
    else (Raise (ValueError "invalid pin"), w).
Proof.
  unfold dhtRead, Pin_new_IN, bind.
  destruct (gpio_exists env pin); [|done]. cbv zeta.
  unfold modify at 1.
  destruct ((mt =? 0) || (mt =? 1)); [|done]. unfold ret at 1.
  unfold try_except.
  destruct (dht_measure env pin mt) as [[temp hum]|].
  - unfold modify, ret, gets. simpl. by rewrite lookup_insert_eq.
  - unfold raise at 1. unfold gets at 1. simpl.
    by destruct (_DHT_CACHE w !! (pin, mt)).
Qed.

(** The other adapters leave the sensor cache alone. *)
Lemma invoke_dht_cache env c w :
  (forall pin mt, c <> c_dhtRead pin mt) ->
  _DHT_CACHE (invoke env c w).2 = _DHT_CACHE w.
Proof.
  intros Hc. destruct c; try (by run_adapter).
  by destruct (Hc pin_no module_type).
Qed.

Lemma invoke_dhtRead_cache env pin mt w key :
  _DHT_CACHE (invoke env (c_dhtRead pin mt) w).2 !! key =
    match measured key (env, c_dhtRead pin mt) with
    | Some th => Some th
    | None => _DHT_CACHE w !! key
    end.
Proof.
  unfold invoke, bind, measured. rewrite dhtRead_cases. simpl.
  destruct (gpio_exists env pin); simpl;
    [|by rewrite andb_false_r].
  destruct ((mt =? 0) || (mt =? 1)); simpl; [|by rewrite andb_false_r].
  rewrite !andb_true_r.
  destruct (dht_measure env pin mt) as [th|] eqn:E.
  - simpl. case_bool_decide as Hk.
    + subst key. by rewrite lookup_insert_eq.
    + by rewrite lookup_insert_ne.
  - destruct (_DHT_CACHE w !! (pin, mt)); simpl; by case_bool_decide.
Qed.

(** One call changes an entry of the cache only by a successful
    measurement of that sensor. *)
Lemma invoke_cache_step env c w key :
  _DHT_CACHE (invoke env c w).2 !! key =
    match measured key (env, c) with
    | Some th => Some th
    | None => _DHT_CACHE w !! key
    end.
Proof.
  assert ((exists p t, c = c_dhtRead p t) \/
          (forall p t, c <> c_dhtRead p t)) as [(p & t & ->)|Hn]
    by (destruct c; eauto).
  - apply invoke_dhtRead_cache.
  - rewrite invoke_dht_cache by done.
    destruct c; try done. by destruct (Hn pin_no module_type).
Qed.

(** The cache holds, for every sensor, the reading of its most recent
    successful measurement. *)
Lemma dht_cache_last_good history w key :
  _DHT_CACHE (run history w) !! key =
    match last_good key history with
    | Some th => Some th
    | None => _DHT_CACHE w !! key
    end.
Proof.
  unfold run, last_good.
  induction history as [|[env c] history IH] using rev_ind; [done|].
  rewrite !foldl_app. simpl.
  rewrite invoke_cache_step.
  destruct (measured key (env, c)); [done|apply IH].
Qed.

(** C2.  After any sequence of calls from start-up, a [dhtRead] whose
    measurement fails answers the reading of the most recent successful
    measurement of that pin and kind, when there is one, and raises the
    failure when there is none; it leaves the cache as it is.  A successful
    one stores its reading under its key and answers it.  A call changes
    an entry of the cache only by a successful measurement of that sensor,
    and no call removes an entry. *)
Theorem dhtRead_cache_fallback driver history env pin mt :
  let w := run history (boot driver) in
  gpio_exists env pin = true ->
  mt = 0 \/ mt = 1 ->
  (dht_measure env pin mt = None ->
     (dhtRead env pin mt w).1
     = match last_good (pin, mt) history with
       | Some th => Ret th
       | None => Raise (OSError "measure")
       end /\
     _DHT_CACHE (dhtRead env pin mt w).2 = _DHT_CACHE w)
  /\ (forall th,
        dht_measure env pin mt = Some th ->
        (dhtRead env pin mt w).1 = Ret th /\
        _DHT_CACHE (dhtRead env pin mt w).2 = <[(pin, mt) := th]> (_DHT_CACHE w))
  /\ (forall env' c key,
        _DHT_CACHE (invoke env' c w).2 !! key
        = match measured key (env', c) with
          | Some th => Some th
          | None => _DHT_CACHE w !! key
          end /\
        (is_Some (_DHT_CACHE w !! key) ->
         is_Some (_DHT_CACHE (invoke env' c w).2 !! key))).
Proof.
  intros w Hgpio Hmt.
  assert ((mt =? 0) || (mt =? 1) = true) as Hmt'
    by (destruct Hmt as [->| ->]; done).
  rewrite dhtRead_cases, Hgpio, Hmt'. cbv zeta.
  split; [|split].
  - intros ->. simpl.
    pose proof (dht_cache_last_good history (boot driver) (pin, mt)) as Hinv.
    fold w in Hinv. rewrite Hinv. simpl. rewrite lookup_empty.
    by destruct (last_good (pin, mt) history).
  - by intros th ->.
  - intros env' c key. rewrite invoke_cache_step.
    split; [done|]. intros Hk. by case_match.
Qed.

(** A good reading, an unrelated command, then a failed measurement: the
    good reading is answered again. *)
Lemma dhtRead_cache_fallback_witness :
  (dhtRead (mkEnv (fun _ => false) (fun _ => 0) (fun _ => 0) (fun _ => None)
                  (fun _ => true) (fun _ _ => None) false 24 (fun _ => []))
           16 0
           (run [(env0, c_dhtRead 16 0); (env0, c_digitalRead 18)] (boot None))).1
  = Ret (43 # 2, 40 # 1)%Q.
Proof.
  destruct (dhtRead_cache_fallback None
              [(env0, c_dhtRead 16 0); (env0, c_digitalRead 18)]
              (mkEnv (fun _ => false) (fun _ => 0) (fun _ => 0) (fun _ => None)
                     (fun _ => true) (fun _ _ => None) false 24 (fun _ => []))
              16 0) as (H & _ & _).
  - reflexivity.
  - by left.
  - destruct (H eq_refl) as [H1 _]. exact H1.
Defined.

(** C10.  [dhtRead] does not look its pin up in [DIGITAL_PINS]: it never
    raises the unknown-pin error, its result is the same whatever that
    table holds, and once the handle is made from the raw number the only
    argument it rejects is a module type other than 0 and 1.  The other
    operations on digital pins raise the unknown-pin error for a pin that
    is not in the table. *)
Theorem dhtRead_no_pin_validation env pin mt w :
  (dhtRead env pin mt w).1 <> Raise (KeyError "UNKNOWN_DIGITAL_PIN")
  /\ (forall pins,
        (dhtRead env pin mt (with_pins (fun _ => pins) w)).1
        = (dhtRead env pin mt w).1)
  /\ (gpio_exists env pin = true ->
      ((dhtRead env pin mt w).1 = Raise (ValueError "UNKNOWN_DHT_MODULE_TYPE")
       <-> mt <> 0 /\ mt <> 1))
  /\ (DIGITAL_PINS w !! pin = None ->
      forall value token,
        (digitalRead env pin w).1 = Raise (KeyError "UNKNOWN_DIGITAL_PIN") /\
        (digitalWrite env pin token w).1 = Raise (KeyError "UNKNOWN_DIGITAL_PIN") /\
        (analogWrite env pin value w).1 = Raise (KeyError "UNKNOWN_DIGITAL_PIN") /\
        (ultrasonicRead env pin w).1 = Raise (KeyError "UNKNOWN_DIGITAL_PIN") /\
        (pin ∉ ANALOG_PINS ->
         (pinMode env pin token w).1 = Raise (KeyError "UNKNOWN_DIGITAL_PIN"))).
Proof.
  split; [|split; [|split]].
  - rewrite dhtRead_cases. by repeat (simpl; case_inner).
  - intros pins. rewrite !dhtRead_cases. by repeat (simpl; case_inner).
  - intros Hg. rewrite dhtRead_cases, Hg. cbv zeta.
    destruct (Z.eqb_spec mt 0);
      [subst; simpl; split; [by repeat case_inner|lia]|].
    destruct (Z.eqb_spec mt 1);
      [subst; simpl; split; [by repeat case_inner|lia]|].
    simpl. done.
  - intros Hp value token.
    unfold digitalRead, digitalWrite, analogWrite, ultrasonicRead, pinMode, bind.
    rewrite (digital_pin_None _ _ Hp). repeat split; try done.
    intros Hn. rewrite bool_decide_eq_false_2 by done.
    by rewrite (digital_pin_None _ _ Hp).
Qed.

(** Pin 2 is not a declared digital pin: [digitalRead] refuses it,
    [dhtRead] measures on it. *)
Lemma dhtRead_no_pin_validation_witness :
  DIGITAL_PINS w0 !! 2 = None /\
  (digitalRead env0 2 w0).1 = Raise (KeyError "UNKNOWN_DIGITAL_PIN") /\
  (dhtRead env0 2 1 w0).1 = Ret (43 # 2, 40 # 1)%Q /\
  (dhtRead env0 2 7 w0).1 = Raise (ValueError "UNKNOWN_DHT_MODULE_TYPE").
Proof.
  destruct (dhtRead_no_pin_validation env0 2 7 w0) as (_ & _ & H3 & H4).
  split; [reflexivity|].
  destruct (H4 eq_refl 0 []) as (Hr & _).
  split; [exact Hr|]. split; [reflexivity|].
  apply H3; [reflexivity|lia].
Defined.

End sensor.

(** ** The dispatcher *)

Section dispatcher.
Implicit Types (w : World) (env : Env) (line name : str).

Lemma command_of_names cmd c :
  command_of cmd = Some c <-> (cmd, c) ∈ command_names.
Proof.
  unfold command_of. simpl. split.
  - intros H. repeat case_bool_decide; simplify_eq/=; decide_by_compute.
  - intros H. unfold command_names in H.
    repeat (apply elem_of_cons in H as [H|H]; [by simplify_eq|]).
    by apply elem_of_nil in H.
Qed.

(** The stages compose to [handle_command]. *)
Lemma handle_command_staged env line w :
  handle_command env line w =
    match dispatch line with
    | None => send_error w
    | Some c => attempt (invoke env c) (send_reply env) w
    end.
Proof.
  unfold handle_command, dispatch.
  destruct (_parse_call line) as [[name args_str]|]; [|done].
  destruct name as [|x name]; [done|].
  generalize (Py.lower (x :: name)). intros cmd.
  unfold command_of. simpl.
  repeat case_bool_decide; simpl; try done.
  all: destruct (_split_args args_str _) as [|a0 [|a1 [|a2 [|a3 [|a4 l]]]]];
    simpl; try done.
  all: repeat (match goal with
               | |- context [_parse_int ?t] => destruct (_parse_int t); simpl
               | |- context [bus_key ?t] => destruct (bus_key t); simpl
               end); try done.
  all: unfold attempt, invoke, bind, ret; by repeat case_match.
Qed.

Lemma invoke_stdout env c w : stdout (invoke env c w).2 = stdout w.
Proof. destruct c; by run_adapter. Qed.

Lemma build_arity c parts : length parts <> arity c -> build c parts = None.
Proof.
  destruct c, parts as [|a0 [|a1 [|a2 [|a3 [|a4 l]]]]]; simpl; done.
Qed.

Lemma build_integer c parts (i : nat) token :
  i ∈ int_args c -> parts !! i = Some token -> _parse_int token = None ->
  build c parts = None.
Proof.
  intros Hi Hp Ht.
  destruct c; simpl in Hi;
    repeat (apply elem_of_cons in Hi as [->|Hi]);
    try (by apply elem_of_nil in Hi);
    destruct parts as [|a0 [|a1 [|a2 [|a3 [|a4 l]]]]]; simplify_eq/=;
    try done; rewrite ?Ht; simpl; try done;
    repeat (match goal with
            | |- context [_parse_int ?t] => destruct (_parse_int t); simpl
            | |- context [bus_key ?t] => destruct (bus_key t); simpl
            end); done.
Qed.

Lemma dispatch_None_error env line w :
  dispatch line = None ->
  stdout (handle_command env line w) = stdout w ++ error_line.
Proof. intros H. by rewrite handle_command_staged, H. Qed.

(** C1.  Whatever the cause of failure of a line, the command writes the
    line [error] and nothing else. *)
Theorem failure_writes_error env w line :
  failure env w line ->
  stdout (handle_command env line w) = stdout w ++ error_line /\
  response env line w = error_line.
Proof.
  intros Hf.
  assert (stdout (handle_command env line w) = stdout w ++ error_line) as H.
  { destruct Hf as [Hp|name args Hp Hc|name args c Hp Hc Ha
                   |name args c i token Hp Hc Hi Ht Hn|c e w' Hd Hr].
    - apply dispatch_None_error. unfold dispatch. by rewrite Hp.
    - apply dispatch_None_error. unfold dispatch. by rewrite Hp, Hc.
    - apply dispatch_None_error. unfold dispatch. rewrite Hp, Hc.
      by apply build_arity.
    - apply dispatch_None_error. unfold dispatch. rewrite Hp, Hc.
      by apply (build_integer _ _ i token).
    - rewrite handle_command_staged, Hd. unfold attempt. rewrite Hr. simpl.
      pose proof (invoke_stdout env c w) as Hs. rewrite Hr in Hs. simpl in Hs.
      by rewrite Hs. }
  split; [done|]. unfold response. rewrite H. by rewrite drop_app_length.
Qed.

(** One line for each cause. *)
Lemma failure_writes_error_witness :
  response env0 (lit "foo") w0 = error_line /\
  response env0 (lit "unknownCmd(1)") w0 = error_line /\
  response env0 (lit "pinMode(16)") w0 = error_line /\
  response env0 (lit "analogWrite(16, x)") w0 = error_line /\
  response env0 (lit "pinMode(16,BOGUS)") w0 = error_line.
Proof.
  split; [|split; [|split; [|split]]].
  - apply (failure_writes_error env0 w0 (lit "foo")).
    apply malformed_line. reflexivity.
  - apply (failure_writes_error env0 w0 (lit "unknownCmd(1)")).
    apply (unknown_command _ _ _ (lit "unknownCmd") (lit "1")); reflexivity.
  - apply (failure_writes_error env0 w0 (lit "pinMode(16)")).
    apply (arity_mismatch _ _ _ (lit "pinMode") (lit "16") cmd_pinMode);
      [reflexivity|reflexivity|vm_compute; lia].
  - apply (failure_writes_error env0 w0 (lit "analogWrite(16, x)")).
    apply (unparsable_integer _ _ _ (lit "analogWrite") (lit "16, x")
             cmd_analogWrite 1%nat (lit "x"));
      [reflexivity|reflexivity|decide_by_compute|reflexivity|reflexivity].
  - apply (failure_writes_error env0 w0 (lit "pinMode(16,BOGUS)")).
    apply (adapter_raised _ _ _ (c_pinMode 16 (lit "BOGUS"))
             (ValueError "UNKNOWN_MODE") w0); reflexivity.
Defined.

(** *** An empty display text *)

Lemma lower_elem x name : x ∈ name -> Py.lower_char x ∈ Py.lower name.
Proof. intros H. unfold Py.lower. by apply (list_elem_of_fmap_2 Py.lower_char). Qed.

Lemma strip_no_space s :
  (forall x, x ∈ s -> Py.isspace x = false) -> Py.strip s = s.
Proof.
  intros H.
  assert (forall t, (forall x, x ∈ t -> Py.isspace x = false) -> Py.lstrip t = t)
    as Hl.
  { intros [|y t] Ht; [done|]. simpl. rewrite Ht; [done|by left]. }
  unfold Py.strip, Py.rstrip. rewrite (Hl s H).
  rewrite Hl; [apply rev_involutive|].
  intros x Hx. apply H. by apply list_elem_of_In, in_rev, list_elem_of_In in Hx.
Qed.

(** A name that is [settext] up to case has no parenthesis and no
    whitespace in it. *)
Lemma settext_name name :
  Py.lower name = lit "settext" ->
  ("("%char ∉ name) /\ ~ blank name /\ Py.strip name = name /\
  (forall x, x ∈ name -> Py.isspace x = false).
Proof.
  intros Hn.
  assert (forall x, x ∈ name -> Py.lower_char x ∈ lit "settext") as Hin.
  { intros x Hx. rewrite <- Hn. by apply lower_elem. }
  assert (forall x, x ∈ name -> Py.isspace x = false) as Hsp.
  { intros x Hx. specialize (Hin x Hx).
    destruct (Py.isspace x) eqn:E; [|done]. exfalso.
    unfold Py.isspace, Ascii.is_space in E.
    repeat case_match; simplify_eq; refute_by_compute Hin. }
  split; [|split; [|split]].
  - intros Hx. specialize (Hin _ Hx). refute_by_compute Hin.
  - intros Hb. destruct name as [|x name]; [done|].
    inversion Hb; subst. rewrite Hsp in *; [done|by left].
  - by apply strip_no_space.
  - exact Hsp.
Qed.

(** C9.  A [setText] line whose text after the first comma is empty or
    blank is answered [error]: the splitter drops the empty second piece
    and the argument count is no longer two.  The line may be indented and
    may carry text after its closing parenthesis.  The adapter itself takes
    an empty text. *)
Theorem setText_blank_text_rejected env w pre name bus t post :
  blank pre ->
  Py.lower name = lit "settext" ->
  ","%char ∉ bus ->
  blank t ->
  ")"%char ∉ post ->
  let line :=
    pre ++ name ++ "("%char :: bus ++ ","%char :: t ++ ")"%char :: post in
  (exists args_str,
     _parse_call line = Some (name, args_str) /\
     (length (_split_args args_str 1) <= 1)%nat) /\
  response env line w = error_line /\
  stdout (handle_command env line w) = stdout w ++ error_line /\
  (forall key,
     bus_key bus = Some key ->
     is_Some (_LCD_CACHE w !! key) \/ is_Some (LCD1602 w) ->
     (setText env bus [] w).1 = Ret tt).
Proof.
  intros Hpre Hn Hbus Ht Hpost line.
  destruct (settext_name name Hn) as (Hlp & Hnb & Hstrip & Hsp).
  assert (Py.strip (bus ++ ","%char :: t) = Py.lstrip bus ++ [","%char]) as Hargs.
  { unfold Py.strip. rewrite lstrip_app_nonspace by done.
    rewrite rstrip_app_nonspace by done. by rewrite (rstrip_blank t). }
  assert (length (_split_args (Py.strip (bus ++ ","%char :: t)) 1) <= 1)%nat
    as Hlen.
  { rewrite Hargs, split_args_first.
    rewrite split_1_app by by apply notin_lstrip.
    simpl. rewrite filter_cons. rewrite (filter_cons _ (Py.strip [])).
    change (Py.strip []) with (@nil ascii).
    destruct (decide (Py.strip (Py.lstrip bus) <> [])); simpl;
      (destruct (decide (@nil ascii <> [])); [done|simpl; lia]). }
  assert (Py.strip (pre ++ name) = name) as Hname.
  { destruct name as [|x name']; [done|].
    assert (Py.isspace x = false) as Hx by (apply Hsp; by left).
    unfold Py.strip. rewrite lstrip_app_nonspace by done.
    rewrite (lstrip_blank pre Hpre). simpl.
    unfold Py.strip in Hstrip. simpl in Hstrip. by rewrite Hx in Hstrip. }
  assert (_parse_call line = Some (name, Py.strip (bus ++ ","%char :: t)))
    as Hparse.
  { unfold line.
    replace (pre ++ name ++ "("%char :: bus ++ ","%char :: t ++ ")"%char :: post)
      with ((pre ++ name) ++ "("%char :: (bus ++ ","%char :: t) ++ ")"%char :: post)
      by (by rewrite <- !app_assoc).
    rewrite parse_call_shape; [|rewrite not_elem_of_app; split;
                                 [by apply nonspace_not_in_blank|done]|done].
    destruct (decide (blank (pre ++ name))) as [Hb|_]; [|by rewrite Hname].
    apply blank_app in Hb as [_ Hb]. done. }
  assert (dispatch line = None) as Hd.
  { unfold dispatch. rewrite Hparse, Hn.
    change (command_of (lit "settext")) with (Some cmd_setText).
    apply build_arity. simpl. lia. }
  pose proof (dispatch_None_error env line w Hd) as Hout.
  split; [by eexists|]. split; [|split; [done|]].
  - unfold response. rewrite Hout. by rewrite drop_app_length.
  - intros key Hk Hav.
    destruct (bus_key_cases bus key Hk) as (_ & Hl & Hb & _).
    destruct (write_lcd_spec env key [] w Hl Hb Hav) as (w' & Hw & _).
    unfold setText. by rewrite Hk, Hw.
Qed.

(** [setText(0,   )] is refused although [setText] takes the empty text. *)
Lemma setText_blank_text_rejected_witness :
  response env0 (lit "setText(0,   )") w0 = error_line /\
  (setText env0 (lit "0") [] w0).1 = Ret tt.
Proof.
  destruct (setText_blank_text_rejected env0 w0 [] (lit "setText") (lit "0")
              (lit "   ") [])
    as (_ & H1 & _ & H2).
  - constructor.
  - reflexivity.
  - decide_by_compute.
  - repeat constructor.
  - decide_by_compute.
  - split; [exact H1|].
    apply (H2 (lit "i2c0")); [reflexivity|right; by eexists].
Defined.

End dispatcher.

(** ** The ranging adapter *)

(** *** Rounding to a float *)

Section rounding.

Local Open Scope Q_scope.

Lemma pow2_pos e : 0 < pow2 e.
Proof. apply Qpower_0_lt. reflexivity. Qed.

Lemma pow2_add a b : pow2 (a + b) == pow2 a * pow2 b.
Proof. apply Qpower_plus. discriminate. Qed.

Lemma pow2_opp a : pow2 (- a) == / pow2 a.
Proof. apply Qpower_opp. Qed.

Lemma pow2_Z e : (0 <= e)%Z -> pow2 e == inject_Z (2 ^ e).
Proof. intros H. unfold pow2. by rewrite Zpower_Qpower. Qed.

Lemma pow2_le a b : (a <= b)%Z -> pow2 a <= pow2 b.
Proof. intros H. apply Qpower_le_compat_l; [done|discriminate]. Qed.

Lemma pow2_lt_inv a b : pow2 a < pow2 b -> (a < b)%Z.
Proof. intros H. apply (Qpower_lt_compat_l_inv (2 # 1)); [done|reflexivity]. Qed.

Lemma pow2_cancel a : pow2 a * pow2 (- a) == 1.
Proof. rewrite <- pow2_add, Z.add_opp_diag_r. reflexivity. Qed.

(** [rne] against an integer. *)
Lemma rne_le (u v Y : Z) : (0 < v)%Z -> (u <= Y * v)%Z -> (Float.rne u v <= Y)%Z.
Proof.
  intros Hv Hu. unfold Float.rne.
  pose proof (Z.div_mod u v ltac:(lia)) as Hd.
  pose proof (Z.mod_pos_bound u v Hv) as Hr.
  assert (u / v <= Y)%Z by nia.
  destruct (Z.ltb_spec (2 * (u mod v)) v); [done|].
  assert (u / v < Y)%Z by nia.
  destruct (Z.ltb_spec v (2 * (u mod v))); [lia|].
  destruct (Z.even (u / v)); lia.
Qed.

Lemma rne_ge (u v Y : Z) : (0 < v)%Z -> (Y * v <= u)%Z -> (Y <= Float.rne u v)%Z.
Proof.
  intros Hv Hu. unfold Float.rne.
  pose proof (Z.div_mod u v ltac:(lia)) as Hd.
  pose proof (Z.mod_pos_bound u v Hv) as Hr.
  assert (Y <= u / v)%Z by nia.
  destruct (Z.ltb_spec (2 * (u mod v)) v); [done|].
  destruct (Z.ltb_spec v (2 * (u mod v))); [lia|].
  destruct (Z.even (u / v)); lia.
Qed.

Lemma ldexp_val m e : Float.ldexp m e == inject_Z m * pow2 e.
Proof.
  unfold Float.ldexp. destruct (Z.leb_spec 0 e).
  - rewrite inject_Z_mult. by rewrite pow2_Z.
  - assert (0 < 2 ^ (- e))%Z as Hp by (apply Z.pow_pos_nonneg; lia).
    rewrite Qmake_Qdiv. rewrite Z2Pos.id by done.
    rewrite <- pow2_Z by lia. rewrite pow2_opp. unfold Qdiv.
    rewrite Qinv_involutive. reflexivity.
Qed.

(** [scale a b k] is the fraction [(a / b) / 2 ^ k]. *)
Lemma scale_val a b k u v :
  (0 < b)%Z -> Float.scale a b k = (u, v) ->
  (0 < v)%Z /\ inject_Z u == inject_Z a / inject_Z b * pow2 (- k) * inject_Z v.
Proof.
  intros Hb. unfold Float.scale.
  assert (0 < inject_Z b) as Hb' by (by rewrite <- (Zlt_Qlt 0)).
  destruct (Z.leb_spec 0 k); intros [= <- <-].
  - assert (0 < 2 ^ k)%Z by (apply Z.pow_pos_nonneg; lia).
    split; [lia|]. rewrite inject_Z_mult, <- pow2_Z by done.
    rewrite pow2_opp. field. split.
    + intros E. pose proof (pow2_pos k). rewrite E in *. by apply Qlt_irrefl in H1.
    + intros E. rewrite E in Hb'. by apply Qlt_irrefl in Hb'.
  - split; [done|]. rewrite inject_Z_mult, <- pow2_Z by lia. field.
    intros E. rewrite E in Hb'. by apply Qlt_irrefl in Hb'.
Qed.

Lemma Qpos_neq0 (x : Q) : 0 < x -> ~ x == 0.
Proof. intros H E. rewrite E in H. by apply Qlt_irrefl in H. Qed.

(** The exponent [ilog2] finds is not above the fraction. *)
Lemma ilog2_le a b :
  (0 < a)%Z -> (0 < b)%Z -> pow2 (Float.ilog2 a b) <= inject_Z a / inject_Z b.
Proof.
  intros Ha Hb. unfold Float.ilog2.
  assert (0 < inject_Z a) as Ha' by (by rewrite <- (Zlt_Qlt 0)).
  assert (0 < inject_Z b) as Hb' by (by rewrite <- (Zlt_Qlt 0)).
  set (k := (Z.log2 a - Z.log2 b)%Z).
  destruct (Float.scale a b k) as [u v] eqn:E.
  destruct (scale_val a b k u v Hb E) as [Hv Hu].
  assert (0 < inject_Z v) as Hv' by (by rewrite <- (Zlt_Qlt 0)).
  destruct (Z.leb_spec v u) as [Hle|Hgt].
  - rewrite Zle_Qle, Hu in Hle.
    assert (1 <= inject_Z a / inject_Z b * pow2 (- k)) as H1.
    { apply (Qmult_le_r _ _ (inject_Z v)); [done|]. by rewrite Qmult_1_l. }
    apply (Qmult_le_r _ _ (pow2 (- k))); [apply pow2_pos|].
    by rewrite pow2_cancel.
  - destruct (Z.log2_spec a Ha) as [Hla _].
    destruct (Z.log2_spec b Hb) as [_ Hlb].
    pose proof (Z.log2_nonneg a). pose proof (Z.log2_nonneg b).
    rewrite Zle_Qle, <- pow2_Z in Hla by done.
    apply Z.lt_le_incl in Hlb.
    rewrite Zle_Qle, <- pow2_Z in Hlb by lia.
    replace (k - 1)%Z with (Z.log2 a + - Z.succ (Z.log2 b))%Z by (subst k; lia).
    rewrite pow2_add, pow2_opp.
    apply Qle_shift_div_l; [done|].
    rewrite <- Qmult_assoc.
    assert (/ pow2 (Z.succ (Z.log2 b)) * inject_Z b <= 1) as H1.
    { apply (Qmult_le_l _ _ (pow2 (Z.succ (Z.log2 b)))); [apply pow2_pos|].
      rewrite Qmult_assoc, Qmult_inv_r by (apply Qpos_neq0, pow2_pos).
      by rewrite Qmult_1_l, Qmult_1_r. }
    assert (0 <= pow2 (Z.log2 a)) by (apply Qlt_le_weak, pow2_pos).
    eapply Qle_trans; [|exact Hla].
    rewrite <- (Qmult_1_r (pow2 (Z.log2 a))) at 2.
    apply Qmult_le_l; [apply pow2_pos|exact H1].
Qed.

(** Rounding stays on the same side of a float. *)
Lemma round_pos_le p a b y :
  (1 <= p)%Z -> (0 < a)%Z -> (0 < b)%Z -> representable p y ->
  inject_Z a / inject_Z b <= y -> Float.round_pos p a b <= y.
Proof.
  intros Hp Ha Hb (M & k & HM & Hy) Hxy. unfold Float.round_pos.
  set (e := (Float.ilog2 a b - (p - 1))%Z).
  pose proof (ilog2_le a b Ha Hb) as Hlog.
  destruct (Float.scale a b e) as [u v] eqn:E.
  destruct (scale_val a b e u v Hb E) as [Hv Hu].
  assert (0 < inject_Z v) as Hv' by (by rewrite <- (Zlt_Qlt 0)).
  assert (e <= k)%Z as Hek.
  { assert (pow2 (Float.ilog2 a b) < pow2 (p + k)) as Hlt.
    { eapply Qle_lt_trans; [exact Hlog|]. eapply Qle_lt_trans; [exact Hxy|].
      rewrite Hy, pow2_add. apply Qmult_lt_compat_r; [apply pow2_pos|].
      rewrite pow2_Z by lia. rewrite <- Zlt_Qlt. lia. }
    apply pow2_lt_inv in Hlt. lia. }
  assert (0 < 2 ^ (k - e))%Z by (apply Z.pow_pos_nonneg; lia).
  assert (y == inject_Z (M * 2 ^ (k - e)) * pow2 e) as Hy'.
  { rewrite Hy, inject_Z_mult, <- pow2_Z by lia.
    rewrite <- Qmult_assoc, <- pow2_add. by replace (k - e + e)%Z with k by lia. }
  rewrite ldexp_val, Hy'.
  apply Qmult_le_compat_r; [|apply Qlt_le_weak, pow2_pos].
  rewrite <- Zle_Qle. apply rne_le; [done|].
  rewrite Zle_Qle, Hu, inject_Z_mult.
  apply Qmult_le_compat_r; [|by apply Qlt_le_weak].
  apply (Qmult_le_r _ _ (pow2 e)); [apply pow2_pos|].
  rewrite <- Qmult_assoc, (Qmult_comm (pow2 (- e))), pow2_cancel, Qmult_1_r.
  by rewrite <- Hy'.
Qed.

Lemma round_pos_ge p a b y :
  (1 <= p)%Z -> (0 < a)%Z -> (0 < b)%Z -> representable p y ->
  y <= inject_Z a / inject_Z b -> y <= Float.round_pos p a b.
Proof.
  intros Hp Ha Hb (M & k & HM & Hy) Hxy. unfold Float.round_pos.
  set (e := (Float.ilog2 a b - (p - 1))%Z).
  pose proof (ilog2_le a b Ha Hb) as Hlog.
  destruct (Float.scale a b e) as [u v] eqn:E.
  destruct (scale_val a b e u v Hb E) as [Hv Hu].
  assert (0 < inject_Z v) as Hv' by (by rewrite <- (Zlt_Qlt 0)).
  rewrite ldexp_val.
  destruct (Z.le_gt_cases e k) as [Hek|Hek].
  - assert (0 < 2 ^ (k - e))%Z by (apply Z.pow_pos_nonneg; lia).
    assert (y == inject_Z (M * 2 ^ (k - e)) * pow2 e) as Hy'.
    { rewrite Hy, inject_Z_mult, <- pow2_Z by lia.
      rewrite <- Qmult_assoc, <- pow2_add.
      by replace (k - e + e)%Z with k by lia. }
    rewrite Hy'.
    apply Qmult_le_compat_r; [|apply Qlt_le_weak, pow2_pos].
    rewrite <- Zle_Qle. apply rne_ge; [done|].
    rewrite Zle_Qle, Hu, inject_Z_mult.
    apply Qmult_le_compat_r; [|by apply Qlt_le_weak].
    apply (Qmult_le_r _ _ (pow2 e)); [apply pow2_pos|].
    rewrite <- (Qmult_assoc _ (pow2 (- e))), (Qmult_comm (pow2 (- e))),
      pow2_cancel, Qmult_1_r.
    by rewrite <- Hy'.
  - assert (0 < 2 ^ (p - 1))%Z by (apply Z.pow_pos_nonneg; lia).
    assert (2 ^ (p - 1) <= Float.rne u v)%Z as Hm.
    { apply rne_ge; [done|].
      rewrite Zle_Qle, Hu, inject_Z_mult.
      apply Qmult_le_compat_r; [|by apply Qlt_le_weak].
      rewrite <- pow2_Z by lia.
      apply (Qmult_le_r _ _ (pow2 e)); [apply pow2_pos|].
      rewrite <- (Qmult_assoc _ (pow2 (- e))), (Qmult_comm (pow2 (- e))),
        pow2_cancel, Qmult_1_r, <- pow2_add.
      by replace (p - 1 + e)%Z with (Float.ilog2 a b) by (subst e; lia). }
    rewrite Zle_Qle, <- pow2_Z in Hm by lia.
    eapply Qle_trans; [|apply Qmult_le_compat_r; [exact Hm|apply Qlt_le_weak, pow2_pos]].
    rewrite <- pow2_add, Hy.
    eapply Qle_trans; [apply Qmult_le_compat_r;
             [|apply Qlt_le_weak, pow2_pos]|].
    { rewrite Zle_Qle in *. apply Qlt_le_weak. rewrite <- Zlt_Qlt. apply HM. }
    rewrite <- pow2_Z, <- pow2_add by lia. apply pow2_le. lia.
Qed.

Lemma round_le p x y :
  (1 <= p)%Z -> 0 < x -> representable p y -> x <= y -> Float.round p x <= y.
Proof.
  intros Hp Hx Hy Hxy. unfold Float.round.
  destruct x as [[|a|a] b]; [done| |done].
  apply round_pos_le; [done..|]. by rewrite <- Qmake_Qdiv.
Qed.

Lemma round_ge p x y :
  (1 <= p)%Z -> 0 < x -> representable p y -> y <= x -> y <= Float.round p x.
Proof.
  intros Hp Hx Hy Hxy. unfold Float.round.
  destruct x as [[|a|a] b]; [done| |done].
  apply round_pos_ge; [done..|]. by rewrite <- Qmake_Qdiv.
Qed.

(** A float is its own rounding. *)
Lemma round_representable p y :
  (1 <= p)%Z -> 0 < y -> representable p y -> Float.round p y == y.
Proof.
  intros Hp Hy Hr. apply Qle_antisym.
  - apply round_le; [done..|apply Qle_refl].
  - apply round_ge; [done..|apply Qle_refl].
Qed.

Lemma to_int_floor (s : Q) (n : Z) :
  (0 <= n)%Z -> inject_Z n <= s -> s < inject_Z (n + 1) -> Float.to_int s = n.
Proof.
  intros Hn Hlo Hhi. unfold Float.to_int.
  assert (0 <= Qnum s)%Z as Hnum.
  { assert (0 <= s) as H0.
    { eapply Qle_trans; [|exact Hlo]. by rewrite <- (Zle_Qle 0). }
    unfold Qle in H0. simpl in H0. lia. }
  rewrite Z.quot_div_nonneg by lia.
  replace (Qnum s / Z.pos (Qden s))%Z with (Qfloor s) by (by destruct s).
  apply Z.le_antisymm.
  - apply Z.lt_succ_r. rewrite Zlt_Qlt.
    eapply Qle_lt_trans; [apply Qfloor_le|exact Hhi].
  - rewrite <- (Qfloor_Z n). by apply Qfloor_resp_le.
Qed.

Lemma representable_Z p (M k : Z) :
  (0 < M < 2 ^ p)%Z -> representable p (inject_Z M * pow2 k).
Proof. intros H. exists M, k. split; [done|reflexivity]. Qed.

(** The distance computed from a duration: [d / 58] rounded half up. *)
Lemma float_distance p d :
  (0 < d)%Z -> (64 * ((d + 29) / 58) + 63 < 2 ^ p)%Z ->
  Float.to_int (Float.add p (Float.div p (Float.of_int p d) 58) (1 # 2))
  = ((d + 29) / 58)%Z.
Proof.
  intros Hd Hp. set (n := ((d + 29) / 58)%Z) in *.
  assert (58 * n <= d + 29 < 58 * n + 58)%Z as [Hn1 Hn2].
  { pose proof (Z.div_mod (d + 29) 58 ltac:(lia)).
    pose proof (Z.mod_pos_bound (d + 29) 58 ltac:(lia)). subst n. lia. }
  clearbody n.
  assert (0 <= n)%Z as Hn0 by lia.
  assert (1 <= p)%Z as Hp1.
  { destruct (Z.le_gt_cases 1 p); [done|].
    assert (2 ^ p <= 1)%Z; [|lia].
    destruct (Z.le_gt_cases 0 p).
    - replace p with 0%Z by lia. done.
    - rewrite Z.pow_neg_r by lia. lia. }
  assert (pow2 (-6) == 1 # 64) as E6 by reflexivity.
  assert (pow2 (-1) == 1 # 2) as E1 by reflexivity.
  assert (pow2 0 == 1) as E0 by reflexivity.
  assert (inject_Z 58 * inject_Z n <= inject_Z d + inject_Z 29) as Q1.
  { rewrite <- inject_Z_mult, <- inject_Z_plus, <- Zle_Qle. lia. }
  assert (inject_Z d + inject_Z 29 <= inject_Z 58 * inject_Z n + inject_Z 57) as Q2.
  { rewrite <- inject_Z_mult, <- !inject_Z_plus, <- Zle_Qle. lia. }
  assert (1 <= inject_Z d) as Q3 by (rewrite <- (Zle_Qle 1); lia).
  assert (0 <= inject_Z n) as Q4 by (rewrite <- (Zle_Qle 0); lia).
  change (inject_Z 58) with 58 in *. change (inject_Z 29) with 29 in *.
  change (inject_Z 57) with 57 in *.
  (* the duration is a float *)
  unfold Float.of_int, Float.div, Float.add.
  assert (Float.round p (inject_Z d) == inject_Z d) as Ed.
  { apply round_representable; [done|lra|].
    exists d, 0%Z. split; [lia|]. rewrite E0. ring. }
  set (f0 := Float.round p (inject_Z d)) in *.
  (* the quotient *)
  assert (f0 / 58 == f0 * (1 # 58)) as Ex1 by (by field).
  assert (0 < f0 / 58) as Hx1 by (rewrite Ex1, Ed; lra).
  set (q := Float.round p (f0 / 58)).
  assert (q <= inject_Z (64 * n + 31) * pow2 (-6)) as Hq_hi.
  { apply round_le; [done..|apply representable_Z; lia|].
    rewrite Ex1, Ed, E6, inject_Z_plus, inject_Z_mult.
    change (inject_Z 64) with 64. change (inject_Z 31) with 31. lra. }
  rewrite E6, inject_Z_plus, inject_Z_mult in Hq_hi.
  change (inject_Z 64) with 64 in Hq_hi. change (inject_Z 31) with 31 in Hq_hi.
  assert (1 # 64 <= q) as Hq_pos.
  { rewrite <- E6, <- (Qmult_1_l (pow2 (-6))).
    apply round_ge; [done..|apply (representable_Z p 1 (-6)); lia|].
    rewrite Qmult_1_l, Ex1, Ed, E6. lra. }
  assert (inject_Z n - (1 # 2) <= q) as Hq_lo.
  { destruct (Z.eq_dec n 0%Z) as [->|Hnz].
    - change (inject_Z 0) with 0. lra.
    - assert (inject_Z (2 * n - 1) * pow2 (-1) <= q) as H.
      { apply round_ge; [done..|apply representable_Z; lia|].
        rewrite Ex1, Ed, E1. unfold Z.sub.
        rewrite inject_Z_plus, inject_Z_mult.
        change (inject_Z 2) with 2. change (inject_Z (- (1))) with (- (1)). lra. }
      rewrite E1 in H. unfold Z.sub in H.
      rewrite inject_Z_plus, inject_Z_mult in H.
      change (inject_Z 2) with 2 in H.
      change (inject_Z (- (1))) with (- (1)) in H. lra. }
  (* the sum *)
  assert (0 < q + (1 # 2)) as Hx2 by lra.
  set (s := Float.round p (q + (1 # 2))).
  assert (s <= inject_Z (64 * n + 63) * pow2 (-6)) as Hs_hi.
  { apply round_le; [done..|apply representable_Z; lia|].
    rewrite E6, inject_Z_plus, inject_Z_mult.
    change (inject_Z 64) with 64. change (inject_Z 63) with 63. lra. }
  rewrite E6, inject_Z_plus, inject_Z_mult in Hs_hi.
  change (inject_Z 64) with 64 in Hs_hi. change (inject_Z 63) with 63 in Hs_hi.
  assert (inject_Z n <= s) as Hs_lo.
  { destruct (Z.eq_dec n 0%Z) as [->|Hnz].
    - change (inject_Z 0) with 0.
      assert (1 * pow2 (-1) <= s) as H.
      { apply round_ge; [done..|apply (representable_Z p 1 (-1)); lia|].
        rewrite E1. lra. }
      rewrite E1 in H. lra.
    - rewrite <- (Qmult_1_r (inject_Z n)), <- E0.
      apply round_ge; [done..|apply representable_Z; lia|].
      rewrite E0. lra. }
  apply to_int_floor; [done|done|].
  rewrite inject_Z_plus. change (inject_Z 1) with 1. lra.
Qed.

(** Single precision carries every duration up to 15 seconds. *)
Lemma single_precision_range d :
  (0 < d <= 15000000)%Z -> (64 * ((d + 29) / 58) + 63 < 2 ^ 24)%Z.
Proof.
  intros Hd.
  assert ((d + 29) / 58 <= 258621)%Z; [|lia].
  apply Z.lt_succ_r, Z.div_lt_upper_bound; lia.
Qed.

(** Beyond its precision the arithmetic no longer rounds half up: in
    single precision a duration of about a minute is off by one. *)
Example single_precision_limit :
  Float.to_int (Float.add 24 (Float.div 24 (Float.of_int 24 60817494) 58) (1 # 2))
  = 1048578%Z /\ ((60817494 + 29) / 58 = 1048577)%Z.
Proof. split; vm_compute; reflexivity. Qed.

(** Rounding half up, as a floor. *)
Lemma half_up_floor d :
  ((d + 29) / 58)%Z = Qfloor (inject_Z d / 58 + (1 # 2)).
Proof.
  set (n := ((d + 29) / 58)%Z).
  assert (58 * n <= d + 29 < 58 * n + 58)%Z as [Hn1 Hn2].
  { pose proof (Z.div_mod (d + 29) 58 ltac:(lia)).
    pose proof (Z.mod_pos_bound (d + 29) 58 ltac:(lia)). subst n. lia. }
  clearbody n.
  assert (inject_Z 58 * inject_Z n <= inject_Z d + inject_Z 29) as Q1.
  { rewrite <- inject_Z_mult, <- inject_Z_plus, <- Zle_Qle. lia. }
  assert (inject_Z d + inject_Z 29 <= inject_Z 58 * inject_Z n + inject_Z 57) as Q2.
  { rewrite <- inject_Z_mult, <- !inject_Z_plus, <- Zle_Qle. lia. }
  change (inject_Z 58) with 58 in *. change (inject_Z 29) with 29 in *.
  change (inject_Z 57) with 57 in *.
  assert (inject_Z d / 58 == inject_Z d * (1 # 58)) as E by (by field).
  apply Z.le_antisymm.
  - rewrite <- (Qfloor_Z n). apply Qfloor_resp_le. rewrite E. lra.
  - apply Z.lt_succ_r. rewrite Zlt_Qlt.
    eapply Qle_lt_trans; [apply Qfloor_le|].
    unfold Z.succ. rewrite E, inject_Z_plus. change (inject_Z 1) with 1. lra.
Qed.

End rounding.

Section ranging.
Implicit Types (w : World) (env : Env) (P d : Z).

Lemma ultrasonicRead_cases env P w p0 :
  DIGITAL_PINS w !! P = Some p0 ->
  pin_init_raises env P = false ->
  exists w',
    DIGITAL_PINS w' !! P = Some (mkPin Pin_IN 0) /\
    ultrasonicRead env P w =
      (match pulse_us env P with
       | None => Raise (RuntimeError "PULSE_TIMEOUT")
       | Some d =>
           if d <=? 0 then Raise (RuntimeError "PULSE_ERROR")
           else Ret (Float.to_int
                       (Float.add (float_prec env)
                          (Float.div (float_prec env)
                             (Float.of_int (float_prec env) d) 58) (1 # 2)))
       end, w').
Proof.
  intros Hp Hinit. eexists. split; cycle 1.
  - unfold ultrasonicRead, bind. rewrite (digital_pin_Some _ _ _ Hp).
    unfold Pin_init. rewrite Hinit. unfold Pin_set, modify.
    destruct (pulse_us env P) as [d|]; [|reflexivity].
    unfold ret. destruct (d <=? 0); reflexivity.
  - simpl. by rewrite !lookup_alter_eq, Hp.
Qed.

(** C3.  On a recognized digital pin whose [Pin.init] succeeds,
    [ultrasonicRead] fails when the pulse measurement raises and when the
    duration is zero or negative, and for a positive duration [d] answers
    [d / 58] rounded half up, the integer [(d + 29) / 58].  The float
    arithmetic of the runtime, of single precision or better, is exact
    enough for this for every duration up to 15 seconds, the time-out of
    the measurement being 30 milliseconds. *)
Theorem ultrasonicRead_distance env w P :
  is_Some (DIGITAL_PINS w !! P) ->
  pin_init_raises env P = false ->
  (pulse_us env P = None ->
   (ultrasonicRead env P w).1 = Raise (RuntimeError "PULSE_TIMEOUT"))
  /\ (forall d,
        pulse_us env P = Some d -> d <= 0 ->
        (ultrasonicRead env P w).1 = Raise (RuntimeError "PULSE_ERROR"))
  /\ (forall d,
        pulse_us env P = Some d -> 0 < d ->
        24 <= float_prec env -> d <= 15000000 ->
        (ultrasonicRead env P w).1 = Ret ((d + 29) / 58) /\
        (d + 29) / 58 = Qfloor (inject_Z d / 58 + (1 # 2))).
Proof.
  intros [p0 Hp] Hinit.
  destruct (ultrasonicRead_cases env P w p0 Hp Hinit) as (w' & _ & ->).
  split; [|split].
  - by intros ->.
  - intros d -> Hd. simpl. by destruct (Z.leb_spec d 0); [|lia].
  - intros d -> Hd Hprec Hmax. split; [|apply half_up_floor].
    simpl. destruct (Z.leb_spec d 0); [lia|].
    rewrite float_distance; [done..|].
    eapply Z.lt_le_trans; [by apply single_precision_range|].
    by apply Z.pow_le_mono_r.
Qed.

(** An echo of 580 microseconds is 10 centimetres; no echo is an error. *)
Lemma ultrasonicRead_distance_witness :
  (ultrasonicRead env0 16 w0).1 = Ret 10 /\
  (ultrasonicRead (mkEnv (fun _ => false) (fun _ => 0) (fun _ => 0)
                         (fun _ => Some 0) (fun _ => true) (fun _ _ => None)
                         false 24 (fun _ => [])) 16 w0).1
  = Raise (RuntimeError "PULSE_ERROR").
Proof.
  split.
  - destruct (ultrasonicRead_distance env0 w0 16) as (_ & _ & H).
    + apply boot_digital_pins. by left.
    + reflexivity.
    + destruct (H 580) as [H1 _]; [reflexivity|lia|vm_compute; discriminate|lia|].
      exact H1.
  - destruct (ultrasonicRead_distance
                (mkEnv (fun _ => false) (fun _ => 0) (fun _ => 0)
                       (fun _ => Some 0) (fun _ => true) (fun _ _ => None)
                       false 24 (fun _ => [])) w0 16) as (_ & H & _).
    + apply boot_digital_pins. by left.
    + reflexivity.
    + apply (H 0); [reflexivity|lia].
Defined.

End ranging.

(** * Further properties *)

(** ** What a call can change *)

Section footprint.
Implicit Types (w : World) (env : Env) (c : call) (P : Z).

Lemma updates_ret {A} (a : A) : updates (ret a).
Proof. intros w. apply rtc_refl. Qed.

Lemma updates_raise {A} e : updates (@raise A e).
Proof. intros w. apply rtc_refl. Qed.

Lemma updates_gets {A} (f : World -> A) : updates (gets f).
Proof. intros w. apply rtc_refl. Qed.

Lemma updates_bind {A B} (m : M A) (k : A -> M B) :
  updates m -> (forall a, updates (k a)) -> updates (bind m k).
Proof.
  intros Hm Hk w. unfold bind. specialize (Hm w).
  destruct (m w) as [[a|e] w1]; simpl in *; [|done].
  etrans; [exact Hm|apply Hk].
Qed.

Lemma updates_try_except {A} (m : M A) (h : exn -> M A) :
  updates m -> (forall e, updates (h e)) -> updates (try_except m h).
Proof.
  intros Hm Hh w. unfold try_except. specialize (Hm w).
  destruct (m w) as [[a|e] w1]; simpl in *; [done|].
  etrans; [exact Hm|apply Hh].
Qed.

Lemma updates_modify (f : World -> World) :
  (forall w, update w (f w)) -> updates (modify f).
Proof. intros H w. apply rtc_once, H. Qed.

Lemma updates_Pin_init env id mode value : updates (Pin_init env id mode value).
Proof.
  unfold Pin_init. destruct (pin_init_raises env id);
    [apply updates_raise|apply updates_modify; intros w; constructor].
Qed.

Lemma updates_Pin_set id v : updates (Pin_set id v).
Proof. apply updates_modify. intros w. constructor. Qed.

Lemma updates_digital_pin P : updates (digital_pin P).
Proof. intros w. unfold digital_pin. destruct (DIGITAL_PINS w !! P); apply rtc_refl. Qed.

Lemma updates_lcd_do k op : updates (lcd_do k op).
Proof. apply updates_modify. intros w. constructor. Qed.

Lemma updates_get_lcd key : updates (_get_lcd key).
Proof.
  intros w. unfold _get_lcd. case_bool_decide as Hc; [apply rtc_refl|].
  destruct (LCD1602 w) eqn:E; [|apply rtc_refl].
  case_bool_decide; [|apply rtc_refl]. simpl. apply rtc_once.
  constructor; [done|by rewrite E|].
  destruct (_LCD_CACHE w !! Py.lower key) eqn:E'; [|done].
  destruct Hc. by eexists.
Qed.

Ltac updates_step :=
  first
    [ apply updates_ret | apply updates_raise | apply updates_gets
    | apply updates_Pin_init | apply updates_Pin_set
    | apply updates_digital_pin | apply updates_lcd_do
    | apply updates_get_lcd
    | apply updates_bind; [|intros ?]
    | apply updates_try_except; [|intros ?] ].

Lemma updates_pinMode env P mode : updates (pinMode env P mode).
Proof.
  unfold pinMode. case_bool_decide; [apply updates_ret|].
  repeat updates_step. repeat case_bool_decide; repeat updates_step.
Qed.

Lemma updates_digitalWrite env P value : updates (digitalWrite env P value).
Proof.
  unfold digitalWrite. repeat updates_step.
  repeat case_bool_decide; repeat updates_step.
Qed.

Lemma updates_digitalRead env P : updates (digitalRead env P).
Proof.
  unfold digitalRead, Pin_get. repeat updates_step.
Qed.

Lemma updates_analogRead env P : updates (analogRead env P).
Proof. unfold analogRead. case_bool_decide; repeat updates_step. Qed.

Lemma updates_analogWrite env P v : updates (analogWrite env P v).
Proof.
  intros w. destruct (DIGITAL_PINS w !! P) as [p|] eqn:Hp.
  - rewrite (analogWrite_spec _ _ _ _ _ Hp). simpl.
    assert (0 <= Z.max 0 (Z.min v 255) <= 255) as Hv by lia.
    destruct (_PWM_CACHE w !! P) eqn:Hc.
    + apply rtc_once.
      replace (with_pwm _ w)
        with (with_pwm (alter (fun ch => mkPWM (pwm_freq ch)
                                 (Z.max 0 (Z.min v 255) * 257)) P) w)
        by (unfold with_pwm; simpl; by rewrite Hc).
      by apply update_pwm_duty.
    + replace (with_pwm _ w)
        with (with_pwm (alter (fun ch => mkPWM (pwm_freq ch)
                                 (Z.max 0 (Z.min v 255) * 257)) P)
                (with_pwm (insert P (mkPWM 1000 0)) w))
        by (unfold with_pwm; simpl; by rewrite Hc).
      eapply rtc_l; [apply (update_pwm_new P w); [by rewrite Hp|done]|].
      apply rtc_once. by apply update_pwm_duty.
  - unfold analogWrite, bind. rewrite (digital_pin_None _ _ Hp). apply rtc_refl.
Qed.

Lemma updates_ultrasonicRead env P : updates (ultrasonicRead env P).
Proof.
  unfold ultrasonicRead. repeat updates_step.
  - destruct (pulse_us env P); repeat updates_step.
  - case_match; repeat updates_step.
Qed.

Lemma updates_write_lcd env name text : updates (write_lcd env name text).
Proof.
  unfold write_lcd. repeat updates_step.
  - destruct (lcd_clear_raises env); repeat updates_step.
  - case_match; repeat updates_step.
Qed.

Lemma updates_setText env bus text : updates (setText env bus text).
Proof.
  unfold setText. destruct (bus_key bus);
    [apply updates_write_lcd|apply updates_raise].
Qed.

Lemma updates_setRGB env bus r g b : updates (setRGB env bus r g b).
Proof.
  unfold setRGB. destruct (bus_key bus); [|apply updates_raise].
  repeat updates_step. case_match; repeat updates_step.
Qed.

Lemma updates_dhtRead env pin mt : updates (dhtRead env pin mt).
Proof.
  intros w. rewrite dhtRead_cases.
  destruct (gpio_exists env pin); [|apply rtc_refl]. cbv zeta.
  destruct (Z.eqb_spec mt 0) as [->|H0]; simpl.
  - destruct (dht_measure env pin 0).
    + simpl. eapply rtc_l; [apply update_pin|].
      apply rtc_once. apply update_dht. by left.
    + destruct (_DHT_CACHE w !! (pin, 0)); apply rtc_once, update_pin.
  - destruct (Z.eqb_spec mt 1) as [->|H1]; simpl.
    + destruct (dht_measure env pin 1).
      * simpl. eapply rtc_l; [apply update_pin|].
        apply rtc_once. apply update_dht. by right.
      * destruct (_DHT_CACHE w !! (pin, 1)); apply rtc_once, update_pin.
    + apply rtc_once, update_pin.
Qed.

(** Every call changes the state by elementary updates only. *)
Lemma updates_invoke env c : updates (invoke env c).
Proof.
  destruct c; unfold invoke; apply updates_bind;
    try (intros ?; apply updates_ret);
    auto using updates_pinMode, updates_digitalWrite, updates_digitalRead,
      updates_analogRead, updates_analogWrite, updates_ultrasonicRead,
      updates_setText, updates_setRGB, updates_dhtRead.
Qed.

Lemma updates_run history w : rtc update w (run history w).
Proof.
  unfold run. induction history as [|[env c] history IH] using rev_ind.
  - apply rtc_refl.
  - rewrite foldl_app. simpl. etrans; [exact IH|apply updates_invoke].
Qed.

(** An invariant of the elementary updates holds throughout a session. *)
Lemma run_invariant (I : World -> Prop) history w :
  (forall w1 w2, update w1 w2 -> I w1 -> I w2) -> I w -> I (run history w).
Proof.
  intros Hstep Hw. pose proof (updates_run history w) as Hr.
  induction Hr; eauto.
Qed.

End footprint.

(** ** The session loop *)

Section session.
Implicit Types (w : World) (env : Env) (line raw : str) (b : Board).

Lemma update_stdout w1 w2 : update w1 w2 -> stdout w2 = stdout w1.
Proof. by destruct 1. Qed.

Lemma update_LCD1602 w1 w2 : update w1 w2 -> LCD1602 w2 = LCD1602 w1.
Proof. by destruct 1. Qed.

Lemma updates_stdout w1 w2 : rtc update w1 w2 -> stdout w2 = stdout w1.
Proof.
  induction 1 as [|w1 w2 w3 H _ IH]; [done|].
  by rewrite IH, (update_stdout _ _ H).
Qed.

(** A command changes the state by elementary updates, then writes one
    line. *)
Lemma handle_command_updates env line w :
  exists w' out,
    rtc update w w' /\
    handle_command env line w
    = with_stdout (fun _ => stdout w ++ out ++ [LF]) w'.
Proof.
  rewrite handle_command_staged.
  destruct (dispatch line) as [c|].
  - unfold attempt. pose proof (updates_invoke env c w) as Hu.
    destruct (invoke env c w) as [[r|e] w1]; simpl in Hu.
    + pose proof (updates_stdout _ _ Hu) as Hs.
      destruct r as [|n|x y]; simpl.
      * exists w1, []. split; [done|].
        unfold write, with_stdout. by rewrite Hs.
      * exists w1, (Py.str_of_int n). split; [done|].
        unfold send_number, write, with_stdout. by rewrite Hs.
      * exists w1, (float_repr env x ++ [SP] ++ float_repr env y).
        split; [done|].
        unfold send_two_floats, write, with_stdout.
        by rewrite Hs, <- !app_assoc.
    + pose proof (updates_stdout _ _ Hu) as Hs.
      exists w1, (lit "error"). split; [done|].
      unfold send_error, write, with_stdout. by rewrite Hs.
  - exists w, (lit "error"). split; [apply rtc_refl|done].
Qed.

Lemma main_turn_read env raw b line :
  read_line raw = Some line ->
  world (main_turn env raw b) = handle_command env line (world b) /\
  LED (main_turn env raw b) = 0.
Proof. intros H. unfold main_turn. by rewrite H. Qed.

Lemma main_turn_eof env b : main_turn env [] b = b.
Proof. done. Qed.

(** An invariant of the elementary updates that does not look at the
    output holds after every turn of the loop. *)
Lemma main_turns_invariant (I : World -> Prop) reads b :
  (forall w1 w2, update w1 w2 -> I w1 -> I w2) ->
  (forall s w, I w -> I (with_stdout (fun _ => s) w)) ->
  I (world b) -> I (world (main_turns reads b)).
Proof.
  intros Hstep Hout. unfold main_turns.
  induction reads as [|[env raw] reads IH] using rev_ind; [done|].
  intros Hb. rewrite foldl_app. specialize (IH Hb).
  set (b1 := foldl (fun b er => main_turn er.1 er.2 b) b reads) in *.
  change (I (world (main_turn env raw b1))).
  destruct (read_line raw) as [line|] eqn:E.
  - destruct (main_turn_read env raw b1 line E) as [-> _].
    destruct (handle_command_updates env line (world b1))
      as (w' & out & Hu & ->).
    apply Hout. clear -Hu IH Hstep. induction Hu; eauto.
  - unfold main_turn. by rewrite E.
Qed.

End session.

(** ** The device tables over a session *)

Section tables.
Implicit Types (w : World) (env : Env) (P : Z) (b : Board).

Lemma session_pins_dom driver reads :
  dom (DIGITAL_PINS (world (main_turns reads (board0 driver))))
  = dom (DIGITAL_PINS (boot driver)).
Proof.
  apply (main_turns_invariant
           (fun w => dom (DIGITAL_PINS w) = dom (DIGITAL_PINS (boot driver)))).
  - intros w1 w2 Hu. destruct Hu; try done. simpl. by rewrite dom_alter_L.
  - done.
  - done.
Qed.

(** X1.  Whatever lines are received, the recognized digital pins stay the
    three declared ones: no command adds a pin to [DIGITAL_PINS] or removes
    one. *)
Theorem session_digital_pins driver reads P :
  is_Some (DIGITAL_PINS (world (main_turns reads (board0 driver))) !! P)
  <-> P = 16 \/ P = 18 \/ P = 20.
Proof.
  rewrite <- (boot_digital_pins driver), <- !elem_of_dom.
  by rewrite session_pins_dom.
Qed.

Lemma update_pwm_ok w1 w2 : update w1 w2 -> pwm_ok w1 -> pwm_ok w2.
Proof.
  intros Hu Hok. destruct Hu as [id f w|P0 w Hp Hc|P0 v w Hv|k w ? ? ?|k op w
                                |pin mt th w ?]; try exact Hok.
  - intros P c Hc. destruct (Hok P c Hc) as (Hp & ?). split; [|done].
    simpl. by apply lookup_alter_is_Some.
  - intros P c. simpl. destruct (decide (P0 = P)) as [->|Hne].
    + rewrite lookup_insert_eq. intros [= <-]. simpl. split; [done|lia].
    + rewrite lookup_insert_ne by done. apply Hok.
  - intros P c. simpl. destruct (decide (P0 = P)) as [->|Hne].
    + rewrite lookup_alter_eq.
      destruct (_PWM_CACHE w !! P) as [c0|] eqn:E; [|done].
      intros [= <-]. simpl. destruct (Hok P c0 E) as (? & ? & ?).
      split; [done|]. split; [done|lia].
    + rewrite lookup_alter_ne by done. apply Hok.
Qed.

(** X2.  Whatever lines are received, every PWM channel in the cache
    belongs to a recognized digital pin, runs at 1 kHz and has a duty
    within 0 .. 65535. *)
Theorem session_pwm_channels driver reads P c :
  _PWM_CACHE (world (main_turns reads (board0 driver))) !! P = Some c ->
  (P = 16 \/ P = 18 \/ P = 20) /\ pwm_freq c = 1000 /\ 0 <= pwm_duty c <= 65535.
Proof.
  intros Hc.
  assert (pwm_ok (world (main_turns reads (board0 driver)))) as Hok.
  { apply (main_turns_invariant pwm_ok).
    - apply update_pwm_ok.
    - intros s w H. exact H.
    - intros P0 c0. simpl. by rewrite lookup_empty. }
  destruct (Hok P c Hc) as (Hp & ? & ?).
  split; [|done]. apply (boot_digital_pins driver).
  by rewrite <- !elem_of_dom, session_pins_dom in *.
Qed.

(** After [analogWrite(16, 300)] and [analogWrite(18, -5)]. *)
Lemma session_pwm_channels_witness :
  let w := world (main_turns [(env0, lit "analogWrite(16, 300)" ++ [LF]);
                              (env0, lit "analogWrite(18, -5)" ++ [LF])]
                             (board0 None)) in
  _PWM_CACHE w !! 18 = Some (mkPWM 1000 0) /\
  (18 = 16 \/ 18 = 18 \/ 18 = 20) /\
  pwm_freq (mkPWM 1000 0) = 1000 /\ 0 <= pwm_duty (mkPWM 1000 0) <= 65535.
Proof.
  cbv zeta. split; [vm_compute; reflexivity|].
  apply (session_pwm_channels None
           [(env0, lit "analogWrite(16, 300)" ++ [LF]);
            (env0, lit "analogWrite(18, -5)" ++ [LF])]
           18 (mkPWM 1000 0)).
  vm_compute. reflexivity.
Defined.

(** X3.  Once a display object exists it stays: whatever lines are received
    afterwards, the calls it has received are kept in order and further
    calls are only added after them. *)
Theorem session_display_log_grows reads b k log :
  _LCD_CACHE (world b) !! k = Some log ->
  exists more,
    _LCD_CACHE (world (main_turns reads b)) !! k = Some (log ++ more).
Proof.
  intros Hk.
  apply (main_turns_invariant
           (fun w => exists more, _LCD_CACHE w !! k = Some (log ++ more))).
  - intros w1 w2 Hu [more Hm]. destruct Hu; try (by exists more).
    + simpl. exists more. rewrite lookup_insert_ne; [done|].
      intros ->. congruence.
    + simpl. destruct (decide (k0 = k)) as [->|Hne].
      * exists (more ++ [op]). rewrite lookup_alter_eq, Hm. simpl.
        by rewrite app_assoc.
      * exists more. by rewrite lookup_alter_ne.
  - intros s w H. exact H.
  - exists []. by rewrite app_nil_r.
Qed.

(** A text, then a colour and a second text on the same display. *)
Lemma session_display_log_grows_witness :
  exists more,
    _LCD_CACHE
      (world (main_turns [(env0, lit "setRGB(0, 1, 2, 3)" ++ [LF]);
                          (env0, lit "setText(i2c0, bye)" ++ [LF])]
                (main_turns [(env0, lit "setText(0, hi)" ++ [LF])]
                            (board0 (Some (mkLcdClass true))))))
      !! lit "i2c0"
    = Some ([lcd_clear; lcd_home; lcd_print (lit "hi")] ++ more).
Proof.
  apply (session_display_log_grows
           [(env0, lit "setRGB(0, 1, 2, 3)" ++ [LF]);
            (env0, lit "setText(i2c0, bye)" ++ [LF])]
           (main_turns [(env0, lit "setText(0, hi)" ++ [LF])]
                       (board0 (Some (mkLcdClass true))))
           (lit "i2c0") [lcd_clear; lcd_home; lcd_print (lit "hi")]).
  vm_compute. reflexivity.
Defined.

Lemma session_display_inv driver reads :
  LCD1602 (world (main_turns reads (board0 driver))) = driver /\
  forall k log,
    _LCD_CACHE (world (main_turns reads (board0 driver))) !! k = Some log ->
    k ∈ I2C_BUSES /\ is_Some driver.
Proof.
  apply (main_turns_invariant
           (fun w => LCD1602 w = driver /\
                     forall k log, _LCD_CACHE w !! k = Some log ->
                                   k ∈ I2C_BUSES /\ is_Some driver)).
  - intros w1 w2 Hu [Hd Hc]. split; [by rewrite (update_LCD1602 _ _ Hu)|].
    destruct Hu; try exact Hc.
    + intros k1 log1. simpl. destruct (decide (k = k1)) as [->|Hne].
      * intros _. split; [done|]. by rewrite <- Hd.
      * rewrite lookup_insert_ne by done. apply Hc.
    + intros k1 log1. simpl. destruct (decide (k = k1)) as [->|Hne].
      * rewrite lookup_alter_eq.
        destruct (_LCD_CACHE w !! k1) eqn:E; [|done]. intros _. by eapply Hc.
      * rewrite lookup_alter_ne by done. apply Hc.
  - intros s w H. exact H.
  - split; [done|]. intros k1 log1. simpl. by rewrite lookup_empty.
Qed.

(** X4.  Whatever lines are received, a display object exists only for one
    of the two buses, and only when the display driver was imported. *)
Theorem session_display_objects driver reads k log :
  _LCD_CACHE (world (main_turns reads (board0 driver))) !! k = Some log ->
  k ∈ I2C_BUSES /\ is_Some driver.
Proof.
  intros Hk. destruct (session_display_inv driver reads) as [_ Hc].
  by apply (Hc k log).
Qed.

Lemma session_display_objects_witness :
  lit "i2c1" ∈ I2C_BUSES /\ is_Some (Some (mkLcdClass false)).
Proof.
  destruct (session_display_objects (Some (mkLcdClass false))
              [(env0, lit "setText(1, hello)" ++ [LF])]
              (lit "i2c1") [lcd_clear; lcd_home; lcd_print (lit "hello")])
    as (H1 & H2).
  - vm_compute. reflexivity.
  - split; [exact H1|exact H2].
Defined.

(** X5.  Without the display driver the display never becomes available:
    whatever lines were received, [setText] and [setRGB] raise and change
    nothing, and a line that calls one of them is answered [error] with
    nothing else changed. *)
Theorem no_driver_no_display reads env :
  let w := world (main_turns reads (board0 None)) in
  (forall bus text,
     setText env bus text w
     = (Raise (match bus_key bus with
               | Some _ => RuntimeError "LCD_DRIVER_NOT_AVAILABLE"
               | None => ValueError "UNKNOWN_I2C_BUS"
               end), w))
  /\ (forall bus r g bl,
        setRGB env bus r g bl w
        = (Raise (match bus_key bus with
               | Some _ => RuntimeError "LCD_DRIVER_NOT_AVAILABLE"
               | None => ValueError "UNKNOWN_I2C_BUS"
               end), w))
  /\ (forall line bus text r g bl,
        dispatch line = Some (c_setText bus text) \/
        dispatch line = Some (c_setRGB bus r g bl) ->
        handle_command env line w = send_error w).
Proof.
  intros w. destruct (session_display_inv None reads) as [Hd Hc].
  fold w in Hd, Hc.
  assert (forall key, _get_lcd key w
                      = (Raise (RuntimeError "LCD_DRIVER_NOT_AVAILABLE"), w))
    as Hget.
  { intros key. unfold _get_lcd. rewrite Hd.
    case_bool_decide as Hs; [|done].
    destruct Hs as [log Hs]. destruct (Hc _ _ Hs) as [_ []]. done. }
  assert (forall bus text,
     setText env bus text w
     = (Raise (match bus_key bus with
               | Some _ => RuntimeError "LCD_DRIVER_NOT_AVAILABLE"
               | None => ValueError "UNKNOWN_I2C_BUS"
               end), w)) as HT.
  { intros bus text. unfold setText. destruct (bus_key bus); [|done].
    unfold write_lcd, bind. by rewrite Hget. }
  assert (forall bus r g bl,
     setRGB env bus r g bl w
     = (Raise (match bus_key bus with
               | Some _ => RuntimeError "LCD_DRIVER_NOT_AVAILABLE"
               | None => ValueError "UNKNOWN_I2C_BUS"
               end), w)) as HR.
  { intros bus r g bl. unfold setRGB. destruct (bus_key bus); [|done].
    unfold bind. by rewrite Hget. }
  split; [exact HT|]. split; [exact HR|].
  intros line bus text r g bl [Hdis|Hdis];
    rewrite handle_command_staged, Hdis; unfold attempt, invoke, bind.
  - by rewrite HT.
  - by rewrite HR.
Qed.

Lemma no_driver_no_display_witness :
  let w := world (main_turns [(env0, lit "setText(1, hi)" ++ [LF])]
                    (board0 None)) in
  handle_command env0 (lit "setRGB(1, 0, 0, 255)") w = send_error w.
Proof.
  intros w.
  destruct (no_driver_no_display [(env0, lit "setText(1, hi)" ++ [LF])] env0)
    as (_ & _ & H).
  apply (H (lit "setRGB(1, 0, 0, 255)") (lit "1") [] 0 0 255).
  right. reflexivity.
Defined.

End tables.

(** ** The adapters *)

Section adapters.
Implicit Types (w : World) (env : Env) (P v : Z).

(** X6.  [digitalRead] refuses a pin that is not recognized and changes
    nothing then.  On a recognized pin it never fails, even when the pin
    cannot be re-initialised: it answers 0 or 1, leaves the output latch of
    the pin and every other pin as they were, and leaves the pin an input
    when the initialisation went through. *)
Theorem digitalRead_answers_bit env P w :
  (DIGITAL_PINS w !! P = None ->
   digitalRead env P w = (Raise (KeyError "UNKNOWN_DIGITAL_PIN"), w))
  /\ (forall p,
        DIGITAL_PINS w !! P = Some p ->
        exists bit w',
          digitalRead env P w = (Ret bit, w') /\
          (bit = 0 \/ bit = 1) /\
          (exists mode, DIGITAL_PINS w' !! P = Some (mkPin mode (pin_out p)) /\
                        (pin_init_raises env P = false -> mode = Pin_IN)) /\
          (forall Q, Q <> P -> DIGITAL_PINS w' !! Q = DIGITAL_PINS w !! Q)).
Proof.
  split.
  - intros Hp. unfold digitalRead, bind. by rewrite (digital_pin_None _ _ Hp).
  - intros p Hp. unfold digitalRead, bind.
    rewrite (digital_pin_Some _ _ _ Hp).
    unfold try_except, Pin_init, Pin_get, gets, ret.
    destruct (pin_init_raises env P) eqn:Hinit; simpl.
    + rewrite Hp. eexists _, w. split; [reflexivity|].
      split; [by destruct (_ =? 0); auto|].
      split; [|done]. exists (pin_mode p). by destruct p.
    + rewrite lookup_alter_eq, Hp. simpl. eexists _, _.
      split; [reflexivity|].
      split; [by destruct (_ =? 0); auto|].
      split.
      * exists Pin_IN. simpl. by rewrite lookup_alter_eq, Hp.
      * intros Q HQ. simpl. by rewrite lookup_alter_ne.
Qed.

(** Pin 18 is recognized; its [init] raising does not make the read fail. *)
Lemma digitalRead_answers_bit_witness :
  exists bit w',
    digitalRead (mkEnv (fun _ => true) (fun _ => 1) (fun _ => 0)
                       (fun _ => None) (fun _ => true) (fun _ _ => None)
                       false 24 (fun _ => [])) 18 w0
    = (Ret bit, w') /\ (bit = 0 \/ bit = 1).
Proof.
  destruct (digitalRead_answers_bit
              (mkEnv (fun _ => true) (fun _ => 1) (fun _ => 0)
                     (fun _ => None) (fun _ => true) (fun _ _ => None)
                     false 24 (fun _ => [])) 18 w0) as [_ H].
  destruct (H (mkPin Pin_OUT 0)) as (bit & w' & H1 & H2 & _).
  - reflexivity.
  - exists bit, w'. split; [exact H1|exact H2].
Defined.

(** X7.  [digitalWrite] fails in two ways only, and changes nothing when
    it fails: on a pin that is not recognized, whatever the level token,
    and on a recognized pin with a token that is neither [high] nor [low].
    With a recognized pin and a level it succeeds and the output latch
    holds the level, even when the pin cannot be re-initialised. *)
Theorem digitalWrite_outcomes env P token w :
  (DIGITAL_PINS w !! P = None ->
   digitalWrite env P token w = (Raise (KeyError "UNKNOWN_DIGITAL_PIN"), w))
  /\ (is_Some (DIGITAL_PINS w !! P) ->
      Py.lower token <> lit "high" -> Py.lower token <> lit "low" ->
      digitalWrite env P token w = (Raise (ValueError "UNKNOWN_LEVEL"), w))
  /\ (forall p level,
        DIGITAL_PINS w !! P = Some p ->
        (Py.lower token = lit "high" /\ level = 1) \/
        (Py.lower token = lit "low" /\ level = 0) ->
        exists w',
          digitalWrite env P token w = (Ret tt, w') /\
          DIGITAL_PINS w' !! P
          = Some (mkPin (if pin_init_raises env P then pin_mode p else Pin_OUT)
                        level) /\
          (forall Q, Q <> P -> DIGITAL_PINS w' !! Q = DIGITAL_PINS w !! Q)).
Proof.
  split; [|split].
  - intros Hp. unfold digitalWrite, bind. by rewrite (digital_pin_None _ _ Hp).
  - intros [p Hp] H1 H2. unfold digitalWrite, bind.
    rewrite (digital_pin_Some _ _ _ Hp).
    by rewrite !bool_decide_eq_false_2 by done.
  - intros p level Hp Htok. unfold digitalWrite, bind.
    rewrite (digital_pin_Some _ _ _ Hp).
    assert ((if bool_decide (Py.lower token = lit "high") then ret 1
             else if bool_decide (Py.lower token = lit "low") then ret 0
             else raise (ValueError "UNKNOWN_LEVEL")) w = (Ret level, w)) as ->.
    { destruct Htok as [[-> ->]|[-> ->]]; done. }
    unfold try_except, Pin_init, Pin_set, modify, raise.
    destruct (pin_init_raises env P); eexists; (split; [reflexivity|]); simpl;
      rewrite lookup_alter_eq, Hp; (split; [done|]);
      intros Q HQ; by rewrite lookup_alter_ne.
Qed.

(** [digitalWrite(20, low)] on a pin whose [init] raises, and a bad token. *)
Lemma digitalWrite_outcomes_witness :
  digitalWrite env0 20 (lit "maybe") w0 = (Raise (ValueError "UNKNOWN_LEVEL"), w0) /\
  exists w',
    digitalWrite (mkEnv (fun _ => true) (fun _ => 1) (fun _ => 0)
                        (fun _ => None) (fun _ => true) (fun _ _ => None)
                        false 24 (fun _ => [])) 20 (lit "Low") w0
    = (Ret tt, w') /\
    DIGITAL_PINS w' !! 20 = Some (mkPin Pin_OUT 0).
Proof.
  split.
  - destruct (digitalWrite_outcomes env0 20 (lit "maybe") w0) as (_ & H & _).
    apply H; [by eexists|discriminate|discriminate].
  - destruct (digitalWrite_outcomes
                (mkEnv (fun _ => true) (fun _ => 1) (fun _ => 0)
                       (fun _ => None) (fun _ => true) (fun _ _ => None)
                       false 24 (fun _ => [])) 20 (lit "Low") w0)
      as (_ & _ & H).
    destruct (H (mkPin Pin_OUT 0) 0) as (w' & H1 & H2 & _).
    + reflexivity.
    + right. split; reflexivity.
    + exists w'. split; [exact H1|exact H2].
Defined.

(** X8.  Of two [analogWrite] on the same pin the last one wins: the state
    after both is the state after the second alone, the channel made by the
    first being reused by the second. *)
Theorem analogWrite_last_wins env1 env2 P v1 v2 w :
  (analogWrite env1 P v1 ;;; analogWrite env2 P v2) w = analogWrite env2 P v2 w.
Proof.
  unfold bind at 1. destruct (DIGITAL_PINS w !! P) as [p|] eqn:Hp.
  - rewrite (analogWrite_spec env1 P v1 w p Hp).
    rewrite (analogWrite_spec env2 P v2 w p Hp).
    rewrite (analogWrite_spec env2 P v2 _ p) by done.
    f_equal. unfold with_pwm. simpl. f_equal.
    destruct (_PWM_CACHE w !! P) as [c|] eqn:Hc.
    + rewrite lookup_alter_eq, Hc. simpl.
      rewrite alter_alter_eq. by apply alter_ext.
    + rewrite lookup_alter_eq, lookup_insert_eq. simpl.
      rewrite alter_alter_eq. by apply alter_ext.
  - unfold analogWrite, bind. by rewrite (digital_pin_None _ _ Hp).
Qed.

(** X9.  [pinMode] looks at the pin before the mode: on an analog channel
    it succeeds and changes nothing whatever the mode token, and on a pin
    that is neither analog nor digital it raises the unknown-pin error
    whatever the token.  On a recognized digital pin an unknown token is
    refused without any change, and a direction token, in any case, sets the
    direction of that pin, keeps its output latch, and setting it twice is
    setting it once. *)
Theorem pinMode_outcomes env P mode w :
  (P ∈ ANALOG_PINS -> pinMode env P mode w = (Ret tt, w))
  /\ (P ∉ ANALOG_PINS -> DIGITAL_PINS w !! P = None ->
      pinMode env P mode w = (Raise (KeyError "UNKNOWN_DIGITAL_PIN"), w))
  /\ (P ∉ ANALOG_PINS -> is_Some (DIGITAL_PINS w !! P) ->
      Py.lower mode ∉ [lit "in"; lit "input"; lit "out"; lit "output"] ->
      pinMode env P mode w = (Raise (ValueError "UNKNOWN_MODE"), w))
  /\ (forall dir,
        P ∉ ANALOG_PINS -> is_Some (DIGITAL_PINS w !! P) ->
        pin_init_raises env P = false ->
        (Py.lower mode ∈ [lit "in"; lit "input"] /\ dir = Pin_IN) \/
        (Py.lower mode ∈ [lit "out"; lit "output"] /\ dir = Pin_OUT) ->
        pinMode env P mode w
        = (Ret tt, with_pins (alter (fun p => mkPin dir (pin_out p)) P) w) /\
        (pinMode env P mode ;;; pinMode env P mode) w = pinMode env P mode w).
Proof.
  split; [|split; [|split]].
  - intros Ha. unfold pinMode. by rewrite bool_decide_eq_true_2.
  - intros Ha Hp. unfold pinMode, bind. rewrite bool_decide_eq_false_2 by done.
    by rewrite (digital_pin_None _ _ Hp).
  - intros Ha [p Hp] Hm. unfold pinMode, bind.
    rewrite bool_decide_eq_false_2 by done.
    rewrite (digital_pin_Some _ _ _ Hp).
    rewrite !bool_decide_eq_false_2; [done|..];
      intros Hin; apply Hm; revert Hin; rewrite !elem_of_cons; tauto.
  - intros dir Ha [p Hp] Hinit Hm.
    assert (forall w1 p1, DIGITAL_PINS w1 !! P = Some p1 ->
              pinMode env P mode w1
              = (Ret tt, with_pins (alter (fun p => mkPin dir (pin_out p)) P) w1))
      as Hone.
    { intros w1 p1 Hp1. unfold pinMode, bind.
      rewrite bool_decide_eq_false_2 by done.
      rewrite (digital_pin_Some _ _ _ Hp1). unfold Pin_init. rewrite Hinit.
      destruct Hm as [[Hm ->]|[Hm ->]].
      - by rewrite bool_decide_eq_true_2.
      - case_bool_decide as Hin; [|by rewrite bool_decide_eq_true_2].
        exfalso. revert Hm Hin. generalize (Py.lower mode). intros m Hm Hin.
        apply elem_of_cons in Hm as [->|Hm].
        + refute_by_compute Hin.
        + apply elem_of_cons in Hm as [->|Hm]; [refute_by_compute Hin|].
          by apply elem_of_nil in Hm. }
    split; [by apply (Hone w p)|].
    unfold bind at 1. rewrite (Hone w p Hp).
    rewrite (Hone _ (mkPin dir (pin_out p)))
      by (simpl; by rewrite lookup_alter_eq, Hp).
    f_equal. unfold with_pins. simpl. f_equal.
    rewrite alter_alter_eq. by apply alter_ext.
Qed.

(** [pinMode(0, whatever)] on an analog channel and [pinMode(16, Input)]. *)
Lemma pinMode_outcomes_witness :
  pinMode env0 0 (lit "whatever") w0 = (Ret tt, w0) /\
  pinMode env0 16 (lit "Input") w0
  = (Ret tt, with_pins (alter (fun p => mkPin Pin_IN (pin_out p)) 16) w0).
Proof.
  split.
  - destruct (pinMode_outcomes env0 0 (lit "whatever") w0) as (H & _).
    apply H. decide_by_compute.
  - destruct (pinMode_outcomes env0 16 (lit "Input") w0) as (_ & _ & _ & H).
    destruct (H Pin_IN) as [H1 _].
    + decide_by_compute.
    + by eexists.
    + reflexivity.
    + left. split; [decide_by_compute|reflexivity].
    + exact H1.
Defined.

(** X10.  On a recognized bus whose display object exists or can be made,
    [setRGB] succeeds: it sends the colour to the display when the driver
    has [set_rgb] and sends nothing when it has not. *)
Theorem setRGB_sends_colour env w bus key r g b :
  bus_key bus = Some key ->
  is_Some (_LCD_CACHE w !! key) \/ is_Some (LCD1602 w) ->
  exists w',
    setRGB env bus r g b w = (Ret tt, w') /\
    _LCD_CACHE w' !! key
    = Some (default [] (_LCD_CACHE w !! key)
            ++ if from_option has_set_rgb false (LCD1602 w)
               then [lcd_set_rgb r g b] else []).
Proof.
  intros Hk Hav.
  destruct (bus_key_cases bus key Hk) as (_ & Hl & Hb & _).
  destruct (get_lcd_spec key w Hl Hb Hav) as (w1 & Hget & Hlog & Hd).
  unfold setRGB. rewrite Hk. unfold bind. rewrite Hget.
  unfold gets. rewrite Hd.
  destruct (from_option has_set_rgb false (LCD1602 w)).
  - destruct (lcd_do_spec key (lcd_set_rgb r g b) w1 _ Hlog)
      as (w2 & -> & Hlog2 & _).
    by exists w2.
  - exists w1. split; [done|]. by rewrite app_nil_r.
Qed.

Lemma setRGB_sends_colour_witness :
  exists w',
    setRGB env0 (lit "I2C1") 255 0 128 w0 = (Ret tt, w') /\
    _LCD_CACHE w' !! lit "i2c1" = Some [lcd_set_rgb 255 0 128].
Proof.
  destruct (setRGB_sends_colour env0 w0 (lit "I2C1") (lit "i2c1") 255 0 128)
    as (w' & H1 & H2).
  - reflexivity.
  - right. by eexists.
  - exists w'. split; [exact H1|exact H2].
Defined.

(** X11.  On a recognized digital pin whose [Pin.init] succeeds,
    [ultrasonicRead] leaves the pin an input with its latch low, whatever
    the measurement gave, and changes nothing else: a level driven on the
    pin before is released. *)
Theorem ultrasonicRead_releases_pin env P w :
  is_Some (DIGITAL_PINS w !! P) ->
  pin_init_raises env P = false ->
  (ultrasonicRead env P w).2
  = with_pins (alter (fun _ => mkPin Pin_IN 0) P) w.
Proof.
  intros [p Hp] Hinit. unfold ultrasonicRead, bind.
  rewrite (digital_pin_Some _ _ _ Hp).
  unfold Pin_init. rewrite Hinit. unfold Pin_set, modify.
  assert (with_pins (alter (fun p => mkPin Pin_IN (default (pin_out p) None)) P)
            (with_pins (alter (fun p => mkPin (pin_mode p) 0) P)
               (with_pins (alter (fun p => mkPin (pin_mode p) 1) P)
                  (with_pins (alter (fun p => mkPin (pin_mode p) 0) P)
                     (with_pins
                        (alter (fun p => mkPin Pin_OUT (default (pin_out p) None)) P)
                        w))))
          = with_pins (alter (fun _ => mkPin Pin_IN 0) P) w) as E.
  { unfold with_pins. simpl. f_equal.
    rewrite !alter_alter_eq. by apply alter_ext. }
  destruct (pulse_us env P) as [d|]; [|by rewrite <- E].
  unfold ret. destruct (d <=? 0); by rewrite <- E.
Qed.

Lemma ultrasonicRead_releases_pin_witness :
  DIGITAL_PINS
    (ultrasonicRead env0 16 (digitalWrite env0 16 (lit "HIGH") w0).2).2 !! 16
  = Some (mkPin Pin_IN 0).
Proof.
  rewrite (ultrasonicRead_releases_pin env0 16
             (digitalWrite env0 16 (lit "HIGH") w0).2).
  - reflexivity.
  - by eexists.
  - reflexivity.
Defined.

End adapters.

(** ** Numbers on the wire *)

Section numbers.

Lemma digit_pretty_N_char d :
  (d < 10)%N -> Py.digit (pretty_N_char d) = Some (Z.of_N d).
Proof.
  intros H.
  assert (d = 0 \/ d = 1 \/ d = 2 \/ d = 3 \/ d = 4 \/ d = 5 \/ d = 6 \/
          d = 7 \/ d = 8 \/ d = 9)%N as Hd by lia.
  repeat (destruct Hd as [->|Hd]; [reflexivity|]). by subst.
Qed.

Lemma isspace_pretty_N_char d : Py.isspace (pretty_N_char d) = false.
Proof. unfold pretty_N_char. by repeat case_match. Qed.

Lemma sign_pretty_N_char d :
  Ascii.eqb (pretty_N_char d) "-" = false /\
  Ascii.eqb (pretty_N_char d) "+" = false.
Proof. unfold pretty_N_char. by repeat case_match. Qed.

(** The digits [pretty_N_go] puts before its accumulator, most significant
    first, are read back by [digits]. *)
Lemma pretty_N_go_digits x :
  forall s, exists ds,
    list_ascii_of_string (pretty_N_go x s) = ds ++ list_ascii_of_string s /\
    (forall acc t,
       Py.digits acc (ds ++ t)
       = Py.digits (acc * 10 ^ Z.of_nat (length ds) + Z.of_N x) t) /\
    (forall c, c ∈ ds -> exists d, c = pretty_N_char d) /\
    ((0 < x)%N -> ds <> []).
Proof.
  induction (N.lt_wf_0 x) as [x _ IH]. intros s.
  assert (x = 0 \/ 0 < x)%N as [->|Hx] by lia.
  - exists []. rewrite pretty_N_go_0. split; [done|]. split; [|split].
    + intros acc t. simpl. f_equal. lia.
    + intros c Hc. by apply elem_of_nil in Hc.
    + lia.
  - rewrite pretty_N_go_step by done.
    destruct (IH (x `div` 10)%N (N.div_lt x 10 Hx eq_refl)
                (String (pretty_N_char (x `mod` 10)) s))
      as (ds & E & Hd & Hc & _).
    exists (ds ++ [pretty_N_char (x `mod` 10)%N]).
    split; [|split; [|split]].
    + rewrite E. simpl. by rewrite <- app_assoc.
    + intros acc t. rewrite <- app_assoc. simpl. rewrite Hd. simpl.
      rewrite digit_pretty_N_char by (apply N.mod_lt; lia).
      f_equal. rewrite length_app. simpl.
      rewrite Nat2Z.inj_add, Z.pow_add_r by lia.
      pose proof (N.div_mod x 10 ltac:(lia)) as Hdm.
      apply (f_equal Z.of_N) in Hdm. rewrite N2Z.inj_add, N2Z.inj_mul in Hdm.
      change (Z.of_N 10) with 10 in Hdm. change (10 ^ Z.of_nat 1) with 10.
      lia.
    + intros c Hin. apply elem_of_app in Hin as [Hin|Hin]; [by apply Hc|].
      apply list_elem_of_singleton in Hin. eauto.
    + by destruct ds.
Qed.

Lemma int_pretty_positive p :
  exists c t,
    list_ascii_of_string (pretty (Npos p)) = c :: t /\
    Py.strip (c :: t) = c :: t /\ Py.isspace c = false /\
    Ascii.eqb c "-" = false /\ Ascii.eqb c "+" = false /\
    (forall x, x ∈ c :: t -> Py.isspace x = false) /\
    Py.digits 0 (c :: t) = Some (Zpos p).
Proof.
  unfold pretty, pretty_N. rewrite decide_False by done.
  destruct (pretty_N_go_digits (Npos p) "") as (ds & E & Hd & Hc & Hne).
  simpl in E. rewrite app_nil_r in E. rewrite E.
  destruct ds as [|c t]; [by destruct Hne|].
  assert (forall x, x ∈ c :: t -> Py.isspace x = false) as Hsp.
  { intros x Hx. destruct (Hc x Hx) as [d ->]. apply isspace_pretty_N_char. }
  destruct (Hc c) as [d ->]; [by left|].
  exists (pretty_N_char d), t. split; [done|].
  split; [by apply strip_no_space|]. split; [apply isspace_pretty_N_char|].
  split; [apply sign_pretty_N_char|]. split; [apply sign_pretty_N_char|].
  split; [done|].
  specialize (Hd 0 []). rewrite app_nil_r in Hd. rewrite Hd. simpl.
  f_equal.
Qed.

Lemma str_of_int_chars n x :
  x ∈ Py.str_of_int n -> x = "-"%char \/ exists d, x = pretty_N_char d.
Proof.
  unfold Py.str_of_int. destruct n as [|p|p].
  - intros H. right. exists 0%N. by apply list_elem_of_singleton in H.
  - change (pretty (Z.pos p)) with (pretty (Npos p)).
    unfold pretty, pretty_N. rewrite decide_False by done.
    destruct (pretty_N_go_digits (Npos p) "") as (ds & E & _ & Hc & _).
    simpl in E. rewrite app_nil_r in E. rewrite E. intros H. right.
    by apply Hc.
  - change (list_ascii_of_string (pretty (Z.neg p)))
      with ("-"%char :: list_ascii_of_string (pretty (N.pos p))).
    unfold pretty, pretty_N. rewrite decide_False by done.
    destruct (pretty_N_go_digits (Npos p) "") as (ds & E & _ & Hc & _).
    simpl in E. rewrite app_nil_r in E. rewrite E. intros H.
    apply elem_of_cons in H as [->|H]; [by left|right; by apply Hc].
Qed.

(** X12.  The decimal text [send_number] writes for an integer is read back
    by [_parse_int] as the same integer. *)
Theorem parse_int_str_of_int n : _parse_int (Py.str_of_int n) = Some n.
Proof.
  unfold _parse_int, Py.str_of_int, Py.int.
  destruct n as [|p|p].
  - reflexivity.
  - change (pretty (Z.pos p)) with (pretty (Npos p)).
    destruct (int_pretty_positive p) as (c & t & -> & -> & _ & -> & -> & _ & ->).
    done.
  - change (pretty (Z.neg p)) with ("-" +:+ pretty (Npos p))%string.
    destruct (int_pretty_positive p) as (c & t & E & _ & _ & _ & _ & Hsp & Hd).
    change (list_ascii_of_string ("-" +:+ pretty (N.pos p)))
      with ("-"%char :: list_ascii_of_string (pretty (N.pos p))).
    rewrite E. rewrite strip_no_space.
    + cbv beta iota. change (Ascii.eqb "-" "-") with true. cbv iota.
      by rewrite Hd.
    + intros x Hx. apply elem_of_cons in Hx as [->|Hx]; [done|by apply Hsp].
Qed.

End numbers.

(** ** The dispatcher *)

Section dispatcher.

Lemma rstrip_idemp s : Py.rstrip (Py.rstrip s) = Py.rstrip s.
Proof. unfold Py.rstrip. by rewrite rev_involutive, lstrip_idemp. Qed.

Lemma lstrip_strip s : Py.lstrip (Py.strip s) = Py.strip s.
Proof.
  unfold Py.strip. destruct (Py.lstrip s) as [|x r] eqn:E; [done|].
  pose proof (lstrip_head _ _ _ E) as Hx.
  pose proof (rstrip_app_nonspace [] x r Hx) as Hr. simpl in Hr.
  rewrite Hr. simpl. by rewrite Hx.
Qed.

Lemma strip_idemp s : Py.strip (Py.strip s) = Py.strip s.
Proof.
  unfold Py.strip at 1. rewrite lstrip_strip. unfold Py.strip.
  apply rstrip_idemp.
Qed.

Lemma parse_call_strip line : _parse_call (Py.strip line) = _parse_call line.
Proof. rewrite !parse_call_unfold. cbv zeta. by rewrite strip_idemp. Qed.

Lemma isspace_lower_char x : Py.isspace (Py.lower_char x) = Py.isspace x.
Proof. by destruct x as [[] [] [] [] [] [] [] []]. Qed.

Lemma lower_char_paren x : Py.lower_char x = "("%char -> x = "("%char.
Proof. by destruct x as [[] [] [] [] [] [] [] []]. Qed.

Lemma lower_lstrip s : Py.lower (Py.lstrip s) = Py.lstrip (Py.lower s).
Proof.
  induction s as [|x s IH]; [done|]. simpl. rewrite isspace_lower_char.
  by destruct (Py.isspace x).
Qed.

Lemma lower_strip s : Py.lower (Py.strip s) = Py.strip (Py.lower s).
Proof.
  unfold Py.strip, Py.rstrip, Py.lower.
  rewrite map_rev. fold (Py.lower (Py.lstrip (rev (Py.lstrip s)))).
  rewrite lower_lstrip. unfold Py.lower at 1. rewrite map_rev.
  fold (Py.lower (Py.lstrip s)). by rewrite lower_lstrip.
Qed.

Lemma blank_lower s : blank (Py.lower s) <-> blank s.
Proof.
  unfold blank, Py.lower. rewrite Forall_fmap.
  apply Forall_iff. intros x. simpl. by rewrite isspace_lower_char.
Qed.

Lemma paren_lower s : "("%char ∈ Py.lower s -> "("%char ∈ s.
Proof.
  unfold Py.lower. intros H. apply list_elem_of_fmap in H as (y & E & Hy).
  symmetry in E. apply lower_char_paren in E. by subst.
Qed.

(** The call a line asks for depends on the case of its name only through
    the lower-case name. *)
Lemma dispatch_name_case n1 n2 rest :
  "("%char ∉ n1 -> Py.lower n1 = Py.lower n2 ->
  dispatch (n1 ++ "("%char :: rest) = dispatch (n2 ++ "("%char :: rest).
Proof.
  intros H1 Hl.
  assert ("("%char ∉ n2) as H2.
  { intros Hin. apply H1, paren_lower. rewrite Hl.
    change "("%char with (Py.lower_char "("). by apply lower_elem. }
  unfold dispatch.
  destruct (decide (")"%char ∈ rest)) as [Hin|Hn].
  - apply list_elem_of_split_r in Hin as (b & c & -> & Hc).
    rewrite !parse_call_shape by done.
    destruct (decide (blank n1)) as [Hb|Hb].
    + rewrite decide_True; [done|]. by rewrite <- blank_lower, <- Hl, blank_lower.
    + rewrite decide_False by (by rewrite <- blank_lower, <- Hl, blank_lower).
      by rewrite !lower_strip, Hl.
  - by rewrite !parse_call_no_close.
Qed.

(** X13.  The command name is matched whatever its case: two lines that
    differ only in the case of the letters before the first opening
    parenthesis are handled alike. *)
Theorem command_name_any_case env w n1 n2 rest :
  "("%char ∉ n1 -> Py.lower n1 = Py.lower n2 ->
  handle_command env (n1 ++ "("%char :: rest) w
  = handle_command env (n2 ++ "("%char :: rest) w.
Proof.
  intros H1 Hl. rewrite !handle_command_staged.
  by rewrite (dispatch_name_case n1 n2 rest H1 Hl).
Qed.

Lemma command_name_any_case_witness :
  handle_command env0 (lit "DIGITALREAD(16)") w0
  = handle_command env0 (lit "digitalRead(16)") w0.
Proof.
  apply (command_name_any_case env0 w0 (lit "DIGITALREAD") (lit "digitalRead")
           (lit "16)")).
  - decide_by_compute.
  - reflexivity.
Defined.

(** The ways [build] refuses the pieces of a command. *)
Lemma build_None c parts :
  build c parts = None ->
  length parts <> arity c \/
  (exists (i : nat) token,
     i ∈ int_args c /\ parts !! i = Some token /\ _parse_int token = None) \/
  ((c = cmd_setText \/ c = cmd_setRGB) /\
   exists token, parts !! 0%nat = Some token /\ bus_key token = None).
Proof.
  intros H.
  destruct (decide (length parts = arity c)) as [Hlen|Hlen]; [|by left].
  right. revert H Hlen.
  destruct c, parts as [|a0 [|a1 [|a2 [|a3 [|a4 l]]]]]; simpl; try done;
    intros H _.
  all: repeat match type of H with
       | context [bus_key ?t] =>
           destruct (bus_key t) eqn:?; simpl in H;
           [|right; split; [eauto|]; by eexists]
       | context [_parse_int ?t] =>
           destruct (_parse_int t) eqn:?; simpl in H
       end; try done.
  all: left.
  all: first [ by exists 0%nat; eexists; split; [decide_by_compute|]
             | by exists 1%nat; eexists; split; [decide_by_compute|]
             | by exists 2%nat; eexists; split; [decide_by_compute|]
             | by exists 3%nat; eexists; split; [decide_by_compute|] ].
Qed.

Lemma build_bus c parts token :
  c = cmd_setText \/ c = cmd_setRGB ->
  parts !! 0%nat = Some token -> bus_key token = None ->
  build c parts = None.
Proof.
  intros [->| ->] Hp Hb;
    destruct parts as [|a0 [|a1 [|a2 [|a3 [|a4 l]]]]]; simplify_eq/=;
    try done; by rewrite Hb.
Qed.

(** X14.  A line is refused before any adapter is called exactly when it is
    not a call, names no command, has not the number of arguments of its
    command, has a token that is no integer where one is required, or, for
    the display commands, a bus token that is none of 0, 1, i2c0, i2c1.
    Such a line changes nothing but the output, which gets the error
    line. *)
Theorem refused_before_call env line w :
  (dispatch line = None <->
     _parse_call line = None \/
     exists name args_str,
       _parse_call line = Some (name, args_str) /\
       (command_of (Py.lower name) = None \/
        exists c,
          command_of (Py.lower name) = Some c /\
          let parts := _split_args args_str (maxsplit_of c) in
          length parts <> arity c \/
          (exists (i : nat) token,
             i ∈ int_args c /\ parts !! i = Some token /\
             _parse_int token = None) \/
          ((c = cmd_setText \/ c = cmd_setRGB) /\
           exists token,
             parts !! 0%nat = Some token /\ bus_key token = None)))
  /\ (dispatch line = None -> handle_command env line w = send_error w).
Proof.
  split; [|intros H; by rewrite handle_command_staged, H].
  unfold dispatch. cbv zeta.
  destruct (_parse_call line) as [[name args_str]|]; [|by split; [left|]].
  destruct (command_of (Py.lower name)) as [c|] eqn:Hc.
  - split.
    + intros H. right. exists name, args_str. split; [done|]. right.
      exists c. split; [done|]. by apply build_None.
    + intros [?|(name' & args' & E & [?|(c' & Hc' & Hb)])]; simplify_eq.
      destruct Hb as [Hb|[(i & token & Hi & Hp & Ht)|(Hcs & token & Hp & Hb)]].
      * by apply build_arity.
      * by apply (build_integer _ _ i token).
      * by apply (build_bus _ _ token).
  - split; [|done]. intros _. right. exists name, args_str. split; [done|].
    by left.
Qed.

(** A display command on the bus [2]. *)
Lemma refused_before_call_witness :
  dispatch (lit "setText(2, hi)") = None /\
  handle_command env0 (lit "setText(2, hi)") w0 = send_error w0.
Proof.
  destruct (refused_before_call env0 (lit "setText(2, hi)") w0) as [[_ H1] H2].
  assert (dispatch (lit "setText(2, hi)") = None) as Hd.
  { apply H1. right. exists (lit "setText"), (lit "2, hi").
    split; [reflexivity|]. right. exists cmd_setText.
    split; [reflexivity|]. right. right. split; [by left|].
    exists (lit "2"). split; reflexivity. }
  split; [exact Hd|exact (H2 Hd)].
Defined.

Lemma lstrip_rstrip s : Py.lstrip (Py.rstrip s) = Py.rstrip (Py.lstrip s).
Proof.
  destruct (Py.lstrip s) as [|x r] eqn:E.
  - apply lstrip_nil in E. by rewrite (rstrip_blank s E).
  - pose proof (lstrip_head _ _ _ E) as Hx.
    destruct (lstrip_suffix s) as (w & Es & Hw). rewrite E in Es.
    rewrite Es at 1. rewrite rstrip_app_nonspace by done.
    rewrite lstrip_app_nonspace by done. rewrite (lstrip_blank w Hw).
    pose proof (rstrip_app_nonspace [] x r Hx) as Hr. simpl in Hr.
    by rewrite Hr.
Qed.

Lemma strip_rstrip s : Py.strip (Py.rstrip s) = Py.strip s.
Proof.
  unfold Py.strip. by rewrite lstrip_rstrip, rstrip_idemp.
Qed.

(** X15.  A [setText] line keeps its text whole: the arguments are split on
    the first comma only, so that the text after it reaches the adapter
    trimmed but with its commas, its parentheses and its inner spaces; the
    bus token reaches it trimmed and in lower case. *)
Theorem setText_line_text bus text post key :
  ","%char ∉ bus -> bus_key (Py.strip bus) = Some key -> ~ blank text ->
  ")"%char ∉ post ->
  dispatch (lit "setText(" ++ bus ++ ","%char :: text ++ ")"%char :: post)
  = Some (c_setText (Py.lower (Py.strip bus)) (Py.strip text)).
Proof.
  intros Hc Hb Ht Hp. unfold dispatch.
  change (lit "setText(" ++ bus ++ ","%char :: text ++ ")"%char :: post)
    with (lit "setText" ++ "("%char :: bus ++ ","%char :: text
            ++ ")"%char :: post).
  replace (bus ++ ","%char :: text ++ ")"%char :: post)
    with ((bus ++ ","%char :: text) ++ ")"%char :: post)
    by (by rewrite <- app_assoc).
  rewrite parse_call_shape by (done || decide_by_compute).
  rewrite decide_False by (intros H; refute_by_compute H).
  change (command_of (Py.lower (Py.strip (lit "setText"))))
    with (Some cmd_setText).
  cbv iota beta. change (maxsplit_of cmd_setText) with 1.
  rewrite split_args_first.
  assert (Py.strip (bus ++ ","%char :: text)
          = Py.lstrip bus ++ ","%char :: Py.rstrip text) as ->.
  { unfold Py.strip. rewrite lstrip_app_nonspace by done.
    by rewrite rstrip_app_nonspace. }
  rewrite split_1_app by by apply notin_lstrip.
  simpl map. rewrite strip_lstrip, strip_rstrip.
  assert (Py.strip bus <> []) as Hbn.
  { intros E. rewrite E in Hb. discriminate. }
  assert (Py.strip text <> []) as Htn.
  { intros E. by apply strip_nil_iff in E. }
  rewrite !filter_cons, !decide_True by done. rewrite filter_nil.
  simpl. by rewrite Hb.
Qed.

Lemma setText_line_text_witness :
  dispatch (lit "setText( I2C1 ,  a, b (c) )")
  = Some (c_setText (lit "i2c1") (lit "a, b (c)")).
Proof.
  apply (setText_line_text (lit " I2C1 ") (lit "  a, b (c) ") [] (lit "i2c1")).
  - decide_by_compute.
  - reflexivity.
  - intros H. refute_by_compute H.
  - decide_by_compute.
Defined.

(** X16.  A parsed line has a name: the name [_parse_call] returns is not
    empty, is trimmed and holds no opening parenthesis, and the argument
    text is trimmed; so the test of the name in [handle_command] refuses
    the lines [_parse_call] refused and no other. *)
Theorem parse_call_name line name args_str :
  _parse_call line = Some (name, args_str) ->
  name <> [] /\ Py.strip name = name /\ ("("%char ∉ name) /\
  Py.strip args_str = args_str.
Proof.
  intros H.
  destruct (decide ("("%char ∈ line)) as [Hin|Hn];
    [|by rewrite parse_call_no_open in H].
  apply list_elem_of_split_l in Hin as (a & b & -> & Ha).
  destruct (decide (")"%char ∈ b)) as [Hin|Hn];
    [|by rewrite parse_call_no_close in H].
  apply list_elem_of_split_r in Hin as (b1 & c & -> & Hc).
  rewrite parse_call_shape in H by done.
  destruct (decide (blank a)) as [Hb|Hb]; [done|]. simplify_eq.
  split; [by rewrite strip_nil_iff|]. split; [apply strip_idemp|].
  split; [by rewrite elem_of_strip|apply strip_idemp].
Qed.

Lemma parse_call_name_witness :
  lit "pinMode" <> [] /\ Py.strip (lit "16, OUTPUT") = lit "16, OUTPUT".
Proof.
  destruct (parse_call_name (lit "  pinMode ( 16, OUTPUT ) ") (lit "pinMode")
              (lit "16, OUTPUT") eq_refl) as (H1 & _ & _ & H2).
  split; [exact H1|exact H2].
Defined.

End dispatcher.

(** ** What a call leaves alone *)

Section frame.
Implicit Types (w : World) (env : Env) (f : Footprint).

Lemma outside_refl f w : outside f w w.
Proof. by repeat split. Qed.

Lemma outside_trans f w1 w2 w3 :
  outside f w1 w2 -> outside f w2 w3 -> outside f w1 w3.
Proof.
  intros (Hp & Hl & Hd & Hc & Hs) (Hp' & Hl' & Hd' & Hc' & Hs').
  split; [|split; [|split; [|split]]].
  - intros P HP. destruct (Hp P HP) as [E1 E2].
    destruct (Hp' P HP) as [E3 E4]. split; congruence.
  - intros k Hk. rewrite <- (Hl k Hk). by apply Hl'.
  - intros s Hs0. rewrite <- (Hd s Hs0). by apply Hd'.
  - congruence.
  - congruence.
Qed.

Lemma touches_ret {A} f (a : A) : touches f (ret a).
Proof. intros w. apply outside_refl. Qed.

Lemma touches_raise {A} f e : touches f (@raise A e).
Proof. intros w. apply outside_refl. Qed.

Lemma touches_gets {A} f (g : World -> A) : touches f (gets g).
Proof. intros w. apply outside_refl. Qed.

Lemma touches_bind {A B} f (m : M A) (k : A -> M B) :
  touches f m -> (forall a, returns m a -> touches f (k a)) ->
  touches f (bind m k).
Proof.
  intros Hm Hk w. unfold bind. specialize (Hm w).
  destruct (m w) as [[a|e] w1] eqn:E; simpl in *; [|done].
  eapply outside_trans; [exact Hm|]. apply Hk. exists w. by rewrite E.
Qed.

Lemma touches_try_except {A} f (m : M A) (h : exn -> M A) :
  touches f m -> (forall e, touches f (h e)) -> touches f (try_except m h).
Proof.
  intros Hm Hh w. unfold try_except. specialize (Hm w).
  destruct (m w) as [[a|e] w1]; simpl in *; [done|].
  eapply outside_trans; [exact Hm|apply Hh].
Qed.

Lemma touches_pins f (g : Pin -> Pin) id :
  id ∈ fp_pins f -> touches f (modify (with_pins (alter g id))).
Proof.
  intros Hid w. split; [|done]. intros P HP. split; [|done]. simpl.
  apply lookup_alter_ne. by intros ->.
Qed.

Lemma touches_Pin_init f env id mode value :
  id ∈ fp_pins f -> touches f (Pin_init env id mode value).
Proof.
  intros Hid. unfold Pin_init. destruct (pin_init_raises env id);
    [apply touches_raise|by apply touches_pins].
Qed.

Lemma touches_Pin_set f id v : id ∈ fp_pins f -> touches f (Pin_set id v).
Proof. apply touches_pins. Qed.

Lemma touches_digital_pin f P : touches f (digital_pin P).
Proof.
  intros w. unfold digital_pin.
  destruct (DIGITAL_PINS w !! P); apply outside_refl.
Qed.

Lemma touches_lcd_do f k op : k ∈ fp_buses f -> touches f (lcd_do k op).
Proof.
  intros Hk w. split; [done|]. split; [|done]. intros k' Hk'. simpl.
  apply lookup_alter_ne. by intros ->.
Qed.

Lemma touches_get_lcd f key :
  Py.lower key ∈ fp_buses f -> touches f (_get_lcd key).
Proof.
  intros Hk w. unfold _get_lcd.
  case_bool_decide; [apply outside_refl|].
  destruct (LCD1602 w); [|apply outside_refl].
  case_bool_decide; [|apply outside_refl].
  split; [done|]. split; [|done]. intros k' Hk'. simpl.
  apply lookup_insert_ne. by intros <-.
Qed.

Lemma returns_get_lcd key k : returns (_get_lcd key) k -> k = Py.lower key.
Proof.
  intros [w H]. unfold _get_lcd in H.
  repeat (case_bool_decide || case_match); by simplify_eq/=.
Qed.

Ltac touches_step :=
  first
    [ apply touches_ret | apply touches_raise | apply touches_gets
    | apply touches_digital_pin
    | apply touches_Pin_init; by left
    | apply touches_Pin_set; by left
    | apply touches_bind; [|intros ? ?]
    | apply touches_try_except; [|intros ?] ].

Lemma touches_write_lcd f env key text :
  Py.lower key ∈ fp_buses f -> touches f (write_lcd env key text).
Proof.
  intros Hk. unfold write_lcd.
  apply touches_bind; [by apply touches_get_lcd|].
  intros lcd ->%returns_get_lcd. cbv zeta.
  apply touches_bind; [|intros _ _].
  { apply touches_try_except; [|intros; apply touches_ret].
    destruct (lcd_clear_raises env);
      [apply touches_raise|by apply touches_lcd_do]. }
  apply touches_bind; [by apply touches_lcd_do|intros _ _].
  apply touches_bind; [by apply touches_lcd_do|intros _ _].
  case_match; [apply touches_ret|].
  apply touches_bind; [by apply touches_lcd_do|intros _ _].
  by apply touches_lcd_do.
Qed.

(** X17.  A call leaves alone whatever is outside of its footprint: a pin
    command touches its own pin and PWM channel only, [analogRead] touches
    nothing, a display command touches the display of its own bus only, and
    [dhtRead] touches its pin and the reading kept for its pin and module
    type only.  No call writes to the output or changes the driver. *)
Theorem invoke_leaves_alone env c w :
  outside (footprint c) w (invoke env c w).2.
Proof.
  revert w. change (touches (footprint c) (invoke env c)).
  destruct c; unfold invoke, footprint.
  - unfold pinMode. case_bool_decide; repeat touches_step.
    repeat case_bool_decide; repeat touches_step.
  - unfold digitalWrite. repeat touches_step.
    repeat case_bool_decide; repeat touches_step.
  - unfold digitalRead, Pin_get. repeat touches_step.
  - unfold analogRead. case_bool_decide; repeat touches_step.
  - unfold analogWrite. repeat touches_step.
    + case_match; [apply touches_ret|].
      intros w. split; [|done]. intros P HP. split; [done|]. simpl.
      apply lookup_insert_ne. intros ->. apply HP. by left.
    + intros w. split; [|done]. intros P HP. split; [done|]. simpl.
      apply lookup_alter_ne. intros ->. apply HP. by left.
  - unfold ultrasonicRead. repeat touches_step.
    + destruct (pulse_us env pin_no); repeat touches_step.
    + destruct (_ <=? _); cbv zeta; repeat touches_step.
  - unfold setText. destruct (bus_key bus) as [key|] eqn:Hb;
      [|repeat touches_step].
    apply touches_bind; [|intros; apply touches_ret].
    apply touches_write_lcd. simpl.
    destruct (bus_key_cases bus key Hb) as (_ & -> & _). by left.
  - unfold setRGB. destruct (bus_key bus) as [key|] eqn:Hb;
      [|repeat touches_step].
    destruct (bus_key_cases bus key Hb) as (_ & Hl & _).
    apply touches_bind; [|intros; apply touches_ret].
    apply touches_bind; [apply touches_get_lcd; rewrite Hl; by left|].
    intros lcd ->%returns_get_lcd. rewrite Hl.
    repeat touches_step. case_match; [|apply touches_ret].
    apply touches_lcd_do. by left.
  - intros w. rewrite (surjective_pairing (_ w)). unfold bind at 1.
    rewrite dhtRead_cases.
    assert (forall w1 : World,
              outside (mkFootprint [pin_no] [] [(pin_no, module_type)]) w
                (with_pins (alter (fun p => mkPin Pin_IN (pin_out p)) pin_no) w))
      as Hpin.
    { intros _. apply (touches_pins _ _ pin_no); by left. }
    destruct (gpio_exists env pin_no); [|apply outside_refl]. cbv zeta.
    destruct ((module_type =? 0) || (module_type =? 1)); [|by apply Hpin].
    destruct (dht_measure env pin_no module_type) as [th|].
    + simpl. eapply outside_trans; [by apply Hpin|].
      split; [done|]. split; [done|]. split; [|done]. intros s Hs. simpl.
      apply lookup_insert_ne. intros <-. apply Hs. by left.
    + destruct (_DHT_CACHE w !! (pin_no, module_type)); by apply Hpin.
Qed.

End frame.

(** ** The answers *)

Section answers.

Lemma str_of_int_no_LF n : LF ∉ Py.str_of_int n.
Proof.
  intros H. apply str_of_int_chars in H as [H|[d H]]; [done|].
  unfold pretty_N_char in H. by repeat case_match.
Qed.

Lemma str_of_int_not_error n : Py.str_of_int n <> lit "error".
Proof.
  intros E.
  assert ("e"%char ∈ Py.str_of_int n) as H by (rewrite E; decide_by_compute).
  apply str_of_int_chars in H as [H|[d H]]; [done|].
  unfold pretty_N_char in H. by repeat case_match.
Qed.

Lemma send_reply_line env r w :
  send_reply env r w = write (reply_line env r) w.
Proof. by destruct r. Qed.

Lemma reply_line_not_error env r : reply_line env r <> error_line.
Proof.
  destruct r as [|n|a b]; simpl; unfold error_line.
  - done.
  - intros E. apply app_inv_tail in E. by apply str_of_int_not_error in E.
  - intros E.
    assert (SP ∈ lit "error" ++ [LF]) as H.
    { rewrite <- E. apply elem_of_app. right. by left. }
    refute_by_compute H.
Qed.

Lemma handle_command_served env line w c r w' :
  dispatch line = Some c -> invoke env c w = (Ret r, w') ->
  handle_command env line w = write (reply_line env r) w' /\
  response env line w = reply_line env r.
Proof.
  intros Hd Hi. rewrite handle_command_staged, Hd. unfold attempt.
  rewrite Hi, send_reply_line. split; [done|].
  unfold response. rewrite handle_command_staged, Hd. unfold attempt.
  rewrite Hi, send_reply_line. simpl.
  pose proof (invoke_stdout env c w) as Hs. rewrite Hi in Hs. simpl in Hs.
  by rewrite Hs, drop_app_length.
Qed.

Lemma handle_command_raised env line w c e w' :
  dispatch line = Some c -> invoke env c w = (Raise e, w') ->
  handle_command env line w = send_error w' /\
  response env line w = error_line.
Proof.
  intros Hd Hi. rewrite handle_command_staged, Hd. unfold attempt.
  rewrite Hi. split; [done|].
  unfold response. rewrite handle_command_staged, Hd. unfold attempt.
  rewrite Hi. simpl.
  pose proof (invoke_stdout env c w) as Hs. rewrite Hi in Hs. simpl in Hs.
  by rewrite Hs, drop_app_length.
Qed.

Lemma response_refused env line w :
  dispatch line = None -> response env line w = error_line.
Proof.
  intros Hd. unfold response. rewrite (dispatch_None_error _ _ _ Hd).
  by rewrite drop_app_length.
Qed.

(** X18.  The answer to a line is the error line exactly when the line was
    refused or the adapter raised: a served call is answered by an empty
    line, by a decimal number or by two floats separated by a space, none
    of which reads [error]. *)
Theorem error_iff_not_served env line w :
  (response env line w = error_line <->
     dispatch line = None \/
     exists c e w', dispatch line = Some c /\ invoke env c w = (Raise e, w'))
  /\ (forall c r w',
        dispatch line = Some c -> invoke env c w = (Ret r, w') ->
        response env line w = reply_line env r /\
        handle_command env line w = write (reply_line env r) w').
Proof.
  split.
  - split.
    + intros Hr. destruct (dispatch line) as [c|] eqn:Hd; [|by left].
      right. exists c. destruct (invoke env c w) as [[r|e] w'] eqn:Hi; [|eauto].
      destruct (handle_command_served env line w c r w' Hd Hi) as [_ Hresp].
      rewrite Hresp in Hr. by apply reply_line_not_error in Hr.
    + intros [Hd|(c & e & w' & Hd & Hi)].
      * by apply response_refused.
      * by apply (handle_command_raised env line w c e w').
  - intros c r w' Hd Hi.
    destruct (handle_command_served env line w c r w' Hd Hi). by split.
Qed.

Lemma error_iff_not_served_witness :
  response env0 (lit "analogRead(7)") w0 = error_line /\
  response env0 (lit "analogRead(1)") w0 = lit "512" ++ [LF].
Proof.
  destruct (error_iff_not_served env0 (lit "analogRead(7)") w0) as [[_ H1] _].
  destruct (error_iff_not_served env0 (lit "analogRead(1)") w0) as [_ H2].
  split.
  - apply H1. right. by exists (c_analogRead 7), (KeyError "UNKNOWN_ANALOG_PIN"), w0.
  - destruct (H2 (c_analogRead 1) (r_number 512) w0) as [H _];
      [reflexivity..|exact H].
Defined.

Lemma line_count_app a b : line_count (a ++ b) = (line_count a + line_count b)%nat.
Proof. unfold line_count. by rewrite filter_app, length_app. Qed.

Lemma line_count_none s : LF ∉ s -> line_count s = 0%nat.
Proof.
  unfold line_count. induction s as [|x s IH]; [done|].
  intros [Hx Hs]%not_elem_of_cons. rewrite filter_cons.
  rewrite decide_False by done. by apply IH.
Qed.

Lemma reply_line_count env r :
  (forall q, LF ∉ float_repr env q) -> line_count (reply_line env r) = 1%nat.
Proof.
  intros Hf. destruct r as [|n|a b]; simpl.
  - done.
  - rewrite line_count_app, line_count_none by apply str_of_int_no_LF. done.
  - rewrite line_count_app, (line_count_none _ (Hf a)).
    change (SP :: float_repr env b ++ [LF])
      with ([SP] ++ float_repr env b ++ [LF]).
    rewrite !line_count_app, (line_count_none _ (Hf b)). done.
Qed.

Lemma handle_command_line_count env line w :
  (forall q, LF ∉ float_repr env q) ->
  line_count (stdout (handle_command env line w))
  = S (line_count (stdout w)).
Proof.
  intros Hf.
  assert (line_count (stdout (send_error w)) = S (line_count (stdout w))) as He.
  { simpl. rewrite line_count_app. unfold error_line.
    change (line_count (lit "error" ++ [LF])) with 1%nat. lia. }
  destruct (dispatch line) as [c|] eqn:Hd.
  - pose proof (invoke_stdout env c w) as Hs.
    destruct (invoke env c w) as [[r|e] w'] eqn:Hi; simpl in Hs.
    + destruct (handle_command_served env line w c r w' Hd Hi) as [-> _].
      simpl. rewrite line_count_app, reply_line_count, Hs by done. lia.
    + destruct (handle_command_raised env line w c e w' Hd Hi) as [-> _].
      simpl. rewrite line_count_app, Hs. unfold error_line.
      change (line_count (lit "error" ++ [LF])) with 1%nat. lia.
  - rewrite handle_command_staged, Hd. exact He.
Qed.

(** X19.  Over a session every line received is answered by exactly one
    line, and a read at the end of the input by none: the output grows by
    as many line ends as there were non-empty reads, provided the text of
    a float holds no line end. *)
Theorem session_one_line_per_read reads b :
  (forall er, er ∈ reads -> forall q, LF ∉ float_repr er.1 q) ->
  line_count (stdout (world (main_turns reads b)))
  = (line_count (stdout (world b))
     + length (filter (fun er => er.2 <> []) reads))%nat.
Proof.
  unfold main_turns.
  induction reads as [|[env raw] reads IH] using rev_ind; intros Hf.
  - simpl. lia.
  - rewrite foldl_app, filter_app, length_app.
    set (b1 := foldl (fun b er => main_turn er.1 er.2 b) b reads) in *.
    change (line_count (stdout (world (main_turn env raw b1)))
            = (line_count (stdout (world b))
               + (length (filter (fun er => er.2 <> []) reads)
                  + length (filter (fun er : Env * str => er.2 <> [])
                              [(env, raw)])))%nat).
    rewrite Nat.add_assoc, <- IH
      by (intros er Her; apply Hf, elem_of_app; by left).
    destruct raw as [|x raw].
    + rewrite main_turn_eof. simpl. lia.
    + destruct (main_turn_read env (x :: raw) b1 (Py.strip (x :: raw)) eq_refl)
        as [-> _].
      rewrite handle_command_line_count
        by (apply (Hf (env, x :: raw)), elem_of_app; right; by left).
      rewrite filter_cons, decide_True by done. simpl. lia.
Qed.

Lemma session_one_line_per_read_witness :
  line_count
    (stdout (world (main_turns
       [(env0, lit "digitalRead(16)" ++ [LF]); (env0, []); (env0, [LF])]
       (board0 (Some (mkLcdClass true)))))) = 2%nat.
Proof.
  rewrite (session_one_line_per_read
             [(env0, lit "digitalRead(16)" ++ [LF]); (env0, []); (env0, [LF])]
             (board0 (Some (mkLcdClass true)))).
  - reflexivity.
  - intros er Her q.
    assert (er.1 = env0) as ->.
    { repeat (apply elem_of_cons in Her as [->|Her]; [done|]).
      by apply elem_of_nil in Her. }
    apply str_of_int_no_LF.
Defined.

(** X20.  One turn of the loop: a read at the end of the input changes
    nothing and leaves the LED as it is; any other read is handled as a
    command, the trimming of [read_line] changing nothing to what
    [handle_command] does with the line, and the LED is off afterwards; a
    line of white space only is answered by the error line. *)
Theorem main_turn_outcomes env raw b :
  (raw = [] -> main_turn env raw b = b)
  /\ (raw <> [] ->
      main_turn env raw b = mkBoard (handle_command env raw (world b)) 0)
  /\ (raw <> [] -> blank raw ->
      stdout (world (main_turn env raw b)) = stdout (world b) ++ error_line).
Proof.
  assert (raw <> [] ->
          main_turn env raw b = mkBoard (handle_command env raw (world b)) 0)
    as Hturn.
  { intros Hne. unfold main_turn, read_line.
    destruct raw as [|x raw]; [done|]. simpl. f_equal.
    unfold handle_command. by rewrite parse_call_strip. }
  split; [by intros ->|]. split; [exact Hturn|].
  intros Hne Hb. rewrite (Hturn Hne). simpl.
  apply dispatch_None_error. unfold dispatch.
  rewrite parse_call_unfold. cbv zeta. by rewrite (strip_blank raw Hb).
Qed.

Lemma main_turn_outcomes_witness :
  main_turn env0 (lit "  digitalRead(16)" ++ [CR; LF]) (mkBoard w0 0)
  = mkBoard (handle_command env0 (lit "  digitalRead(16)" ++ [CR; LF]) w0) 0
  /\ stdout (world (main_turn env0 [CR; LF] (mkBoard w0 0))) = error_line.
Proof.
  destruct (main_turn_outcomes env0 (lit "  digitalRead(16)" ++ [CR; LF])
              (mkBoard w0 0)) as (_ & H1 & _).
  destruct (main_turn_outcomes env0 [CR; LF] (mkBoard w0 0)) as (_ & _ & H2).
  split.
  - by apply H1.
  - apply H2; [done|]. by repeat constructor.
Defined.

End answers.
